(** * CatMOD: the region-window algebra and the read alignment encoder

    A shallow embedding of [src/CatMOD/region.py]: the [Region] class with
    its [resize] method, the insertion helpers [insert_requality] and
    [insert_seq_index], the per-read encoder [get_read_alignment] and the
    per-region driver [get_region_alignment].

    Python integers are unbounded, hence [Z]; [//] and [%] by a positive
    divisor are [Z.div] and [Z.modulo] (both floor).  Python floats are
    binary64 numbers, the primitive [float].  Exceptions are the [Err]
    branch of [result]. *)

From Stdlib Require Import ZArith Lia QArith Qabs Ascii String Sorted.
From Stdlib Require Import PrimFloat FloatOps SpecFloat FloatAxioms.
From Stdlib Require Uint63.
From Stdlib Require Import DecimalString.
From stdpp Require Import base list strings gmap.

Local Open Scope Z_scope.

(** ** Exceptions *)

Inductive exn : Type :=
| KeyError
| IndexError
| ValueError
| OverflowError
| OSError.

Inductive result (A : Type) : Type :=
| Ok (a : A)
| Err (e : exn).
Arguments Ok {A} a.
Arguments Err {A} e.

(** ** Region *)

Inductive Strand : Type := Plus | Minus.

Definition Strand_eqb (a b : Strand) : bool :=
  match a, b with
  | Plus, Plus | Minus, Minus => true
  | _, _ => false
  end.

Record Region : Type := mkRegion {
  chrom : string;
  start : Z;
  end_ : Z;
  strand : Strand;
  info : string;
  offset : Z
}.

Definition strand_of_string (s : string) : option Strand :=
  if String.eqb s "+" then Some Plus
  else if String.eqb s "-" then Some Minus
  else None.

(** [Region.__init__]: the two checks of the constructor. *)
Definition Region_init (c : string) (s e : Z) (st : string) (i : string) (o : Z)
  : result Region :=
  if s <=? e then
    match strand_of_string st with
    | Some sd => Ok (mkRegion c s e sd i o)
    | None => Err ValueError
    end
  else Err ValueError.

Definition width (r : Region) : Z := end_ r - start r.

Definition set_bounds (r : Region) (s e o : Z) : Region :=
  mkRegion (chrom r) s e (strand r) (info r) o.

(** Truth value of an [Optional[int]]: [None] and [0] are false. *)
Definition truthy (o : option Z) : bool :=
  match o with
  | Some v => negb (v =? 0)
  | None => false
  end.

(** [limit and self.end + flank_size + 1 - self.offset >= limit]: the
    limit when the test of the second branch succeeds. *)
Definition right_limit (self : Region) (flank_size : Z) (limit : option Z)
  : option Z :=
  match limit with
  | Some l =>
      if negb (l =? 0) && (l <=? end_ self + flank_size + 1 - offset self)
      then Some l else None
  | None => None
  end.

(** The [window > self.end - self.start] branch of [resize]. *)
Definition grow (self : Region) (window : Z) (limit : option Z) : Region :=
  let flank_size := (window - (end_ self - start self)) / 2 in
  if start self - flank_size - offset self <=? 0 then
    set_bounds self 0 window (offset self)
  else
    match right_limit self flank_size limit with
    | Some l => set_bounds self (l - window) l (offset self)
    | None =>
        if (window - (end_ self - start self)) mod 2 =? 0 then
          set_bounds self (start self - flank_size) (end_ self + flank_size)
            (offset self)
        else if negb (offset self =? 0) then
          set_bounds self (start self - flank_size - 1) (end_ self + flank_size) 0
        else
          set_bounds self (start self - flank_size) (end_ self + flank_size + 1) 1
    end.

(** The [window < self.end - self.start] branch up to its recursive call:
    the region becomes the single base at [mid]. *)
Definition recenter (self : Region) : Region :=
  let mid := (start self + end_ self - offset self) / 2 in
  let s := mid in
  let e := mid + 1 in
  set_bounds self s e (if (e - s - offset self) mod 2 =? 0 then 1 else 0).

(** [Region.resize].  The method calls itself; [fuel] bounds the depth of
    the recursion and [None] means that the depth was not enough. *)
Fixpoint resize (fuel : nat) (self : Region) (window : Z) (limit : option Z)
  : option Region :=
  match fuel with
  | O => None
  | S fuel' =>
      if end_ self - start self <? window then Some (grow self window limit)
      else if window <? end_ self - start self then
        resize fuel' (recenter self) window limit
      else Some self
  end.

(** ** The error monad *)

#[global] Instance result_ret : MRet result := fun A a => Ok a.
#[global] Instance result_bind : MBind result := fun A B f m =>
  match m with
  | Ok a => f a
  | Err e => Err e
  end.

Definition of_option {A : Type} (e : exn) (o : option A) : result A :=
  match o with
  | Some a => Ok a
  | None => Err e
  end.

(** ** Insertion merger *)

Definition _BASE_INTS (c : ascii) : option Z :=
  if Ascii.eqb c "A" then Some 0
  else if Ascii.eqb c "C" then Some 1
  else if Ascii.eqb c "G" then Some 2
  else if Ascii.eqb c "T" then Some 3
  else if Ascii.eqb c "-" then Some 4
  else if Ascii.eqb c "^" then Some 5
  else None.

Definition _BASE_INDEX (c : ascii) : option ascii :=
  if Ascii.eqb c "A" then Some "0"%char
  else if Ascii.eqb c "C" then Some "1"%char
  else if Ascii.eqb c "G" then Some "2"%char
  else if Ascii.eqb c "T" then Some "3"%char
  else None.

(** [[_BASE_INDEX[base] for base in insert_seq_list]], a [KeyError] at the
    first base that is not a key. *)
Fixpoint base_digits (l : list ascii) : result (list ascii) :=
  match l with
  | [] => Ok []
  | b :: l' =>
      d ← of_option KeyError (_BASE_INDEX b);
      ds ← base_digits l';
      Ok (d :: ds)
  end.

(** Value of a decimal digit character. *)
Definition digit_value (c : ascii) : option Z :=
  let n := Z.of_nat (nat_of_ascii c) in
  if (48 <=? n) && (n <=? 57) then Some (n - 48) else None.

(** [int(s, base)] on a string of digits, most significant digit first. *)
Fixpoint int_digits (base acc : Z) (s : string) : result Z :=
  match s with
  | EmptyString => Ok acc
  | String c s' =>
      match digit_value c with
      | Some d =>
          if d <? base then int_digits base (acc * base + d) s'
          else Err ValueError
      | None => Err ValueError
      end
  end.

Definition py_int (s : string) (base : Z) : result Z :=
  match s with
  | EmptyString => Err ValueError
  | _ => int_digits base 0 s
  end.

Definition INT64_MAX : Z := 9223372036854775807.

Definition insert_seq_index (insert_seq_list : list ascii) : result Z :=
  ds ← base_digits insert_seq_list;
  v ← py_int (String "1" (string_of_list_ascii ds)) 4;
  Ok (Z.min INT64_MAX v).

(** ** Python floats

    The arithmetic of a Python [float] is the primitive one: round to
    nearest, ties to even.  A Python [int] that meets a [float] is
    converted first, exactly below [2^53]; [n / 10] on an [int] is the
    correctly rounded quotient, the number that the division of the two
    floats gives. *)

(** The float of an integer below [2^63] in absolute value. *)
Definition float_of_Z (z : Z) : float :=
  if z <? 0 then (- of_uint63 (Uint63.of_Z (- z)))%float
  else of_uint63 (Uint63.of_Z z).

(** The number [m * 2^e] rounded to binary64. *)
Definition round64 (m e : Z) : float :=
  SF2Prim (binary_normalize prec emax m e false).

(** [numpy.float32(x)]: the binary32 number nearest to [x] (24 bits,
    exponents below 128). *)
Definition to_float32 (x : float) : float :=
  match Prim2SF x with
  | S754_finite s m e =>
      SF2Prim (binary_normalize 24 128 (cond_Zopp s (Zpos m)) e s)
  | _ => x
  end.

(** The value of a finite number, as a rational; 0 for the others. *)
Definition float_Q (x : float) : Q :=
  match Prim2SF x with
  | S754_finite s m e => (inject_Z (cond_Zopp s (Zpos m)) * Qpower 2 e)%Q
  | _ => 0%Q
  end.

(** *** The C library

    [10 ** x] and [math.log] call [pow] and [log] of the C library.  The
    two are taken correctly rounded: the result is the binary64 number
    nearest to the exact value, which is computed in fixed point with
    [fx_bits] binary places, far below half a unit in the last place of
    the result. *)

Definition fx_bits : Z := 128.

Definition fx_mul (a b : Z) : Z := Z.shiftr (a * b) fx_bits.

(** [z + z^3/3 + z^5/5 + ...] for [|z| <= 1/3], until the terms vanish. *)
Fixpoint atanh_series (fuel : nat) (k zpow z2 acc : Z) : Z :=
  match fuel with
  | O => acc
  | S fuel' =>
      if zpow =? 0 then acc
      else atanh_series fuel' (k + 2) (fx_mul zpow z2) z2 (acc + zpow / k)
  end.

Definition fx_atanh (z : Z) : Z := atanh_series 200 1 z (fx_mul z z) 0.

(** [ln 2 = 2 atanh (1/3)] and [ln 10 = 3 ln 2 + 2 atanh (1/9)]. *)
Definition fx_ln2 : Z :=
  Eval vm_compute in 2 * fx_atanh (Z.shiftl 1 fx_bits / 3).

Definition fx_ln10 : Z :=
  Eval vm_compute in 3 * fx_ln2 + 2 * fx_atanh (Z.shiftl 1 fx_bits / 9).

Definition fx_log2_10 : Z :=
  Eval vm_compute in Z.shiftl fx_ln10 fx_bits / fx_ln2.

(** [ln (m * 2^e)] for [0 < m]: with [m * 2^e = M * 2^E] and
    [3/4 <= M < 3/2], it is [E ln 2 + 2 atanh ((M - 1) / (M + 1))]. *)
Definition fx_ln (m e : Z) : Z :=
  let d := Z.log2 m in
  let t := Z.shiftl 1 d in
  let '(t, E) := if 2 * m <? 3 * t then (t, e + d) else (2 * t, e + d + 1) in
  E * fx_ln2 + 2 * fx_atanh (Z.shiftl (m - t) fx_bits / (m + t)).

(** [1 + r + r^2/2 + r^3/6 + ...] for [0 <= r < 1], until the terms
    vanish. *)
Fixpoint exp_series (fuel : nat) (n term r acc : Z) : Z :=
  match fuel with
  | O => acc
  | S fuel' =>
      if term =? 0 then acc
      else exp_series fuel' (n + 1) (fx_mul term r / n) r (acc + term)
  end.

Definition fx_exp (r : Z) : Z := exp_series 200 1 (Z.shiftl 1 fx_bits) r 0.

(** [log(x)] of the C library. *)
Definition libm_log (x : float) : float :=
  match Prim2SF x with
  | S754_finite false m e => round64 (fx_ln (Zpos m) e) (- fx_bits)
  | S754_zero _ => neg_infinity
  | S754_infinity false => infinity
  | _ => nan
  end.

(** [pow(10.0, y)] of the C library: [10^y = 2^k * exp (f ln 2)] with
    [y log2(10) = k + f] and [0 <= f < 1].  From [|y| = 4096] on the
    result is out of range. *)
Definition libm_pow10 (y : float) : float :=
  match Prim2SF y with
  | S754_zero _ => 1%float
  | S754_nan => nan
  | S754_infinity false => infinity
  | S754_infinity true => 0%float
  | S754_finite s m e =>
      if 12 <? Z.log2 (Zpos m) + 1 + e then (if s then 0%float else infinity)
      else
        let t := Z.shiftl (cond_Zopp s (Zpos m) * fx_log2_10) e in
        let k := Z.shiftr t fx_bits in
        let f := t - Z.shiftl k fx_bits in
        round64 (fx_exp (fx_mul f fx_ln2)) (k - fx_bits)
  end.

(** [10 ** w] for a float [w]: [OverflowError] when the result of [pow]
    is out of range. *)
Definition py_pow10 (w : float) : result float :=
  let r := libm_pow10 w in
  if is_infinity r && is_finite w then Err OverflowError else Ok r.

(** [math.log(x, 10)]: the quotient of [log(x)] by [log(10)], and
    [ValueError] when [x] is not positive. *)
Definition math_log10 (x : float) : result float :=
  if is_nan x then Ok x
  else if (0 <? x)%float then Ok (libm_log x / libm_log 10)%float
  else Err ValueError.

(** [insert_requality]: the loop over the list, then the return
    statement.  The elements are Python numbers, as the qualities of a
    read are (Python ints). *)
Fixpoint requality_loop (iq : float) (insert_qual_list : list float)
  : result float :=
  match insert_qual_list with
  | [] => Ok iq
  | q :: l =>
      p ← py_pow10 (- q / 10)%float;
      requality_loop (iq * (1 - p))%float l
  end.

Definition insert_requality (insert_qual_list : list float) : result float :=
  iq ← requality_loop 1%float insert_qual_list;
  v ← math_log10 (1 - iq)%float;
  Ok (-10 * v)%float.

(** ** Array accesses

    A computation of the encoder yields the list of the array accesses it
    made, in order and with the row index as the source computes it (before
    numpy wraps a negative index), and a value or the exception raised. *)

Inductive access : Type :=
| SetHot (row col : Z)
| SetQual (row : Z)
| GetQual (row : Z).

Definition access_row (a : access) : Z :=
  match a with
  | SetHot row _ => row
  | SetQual row => row
  | GetQual row => row
  end.

Definition W (A : Type) : Type := (list access * result A)%type.

Definition wret {A : Type} (a : A) : W A := ([], Ok a).

Definition wbind {A B : Type} (m : W A) (f : A -> W B) : W B :=
  match m with
  | (l, Ok a) => let '(l', r) := f a in (l ++ l', r)
  | (l, Err e) => (l, Err e)
  end.

Definition lift {A : Type} (r : result A) : W A := ([], r).

Definition tell (a : access) : W () := ([a], Ok ()).

Declare Scope w_scope.
Delimit Scope w_scope with W.
Notation "x <~ m ;; k" := (wbind m (fun x => k))
  (at level 100, m at next level, right associativity) : w_scope.
Notation "m ;;; k" := (wbind m (fun _ => k))
  (at level 100, right associativity) : w_scope.

(** Index of a numpy array, a Python list or a string of length [n]: a
    negative index counts from the end. *)
Definition np_index (n : nat) (i : Z) : result nat :=
  if (0 <=? i) && (i <? Z.of_nat n) then Ok (Z.to_nat i)
  else if (- Z.of_nat n <=? i) && (i <? 0) then Ok (Z.to_nat (Z.of_nat n + i))
  else Err IndexError.

Definition py_index {A : Type} (l : list A) (i : Z) : result A :=
  k ← np_index (length l) i;
  of_option IndexError (l !! k).

(** [a[i, j] = v] on an array of shape [(n, 6)]. *)
Definition set_hot (a : list (list Z)) (i j v : Z) : W (list (list Z)) :=
  (tell (SetHot i j) ;;;
   lift (r ← np_index (length a) i;
         c ← np_index 6 j;
         Ok (alter (fun row => <[c := v]> row) r a)))%W.

Definition any_nonzero (a : list (list Z)) : bool :=
  existsb (existsb (fun v => negb (v =? 0))) a.

(** ** Reads and the encoder *)

Section Encoder.

(** The numbers of the quality vector and the merge of a list of them:
    the floats and [insert_requality]. *)
Variable Q : Type.
Variable qzero : Q.
Variable requality : list Q -> result Q.

Record Read : Type := mkRead {
  query_name : string;
  is_reverse : bool;
  aligned_pairs : list (option Z * option Z);
  query_sequence : string;
  query_qualities : list Q
}.

Record ReadFeatures : Type := mkFeatures {
  read_id : string;
  alignment : list (list Z);
  quality : list Q
}.

Definition get_qual (a : list Q) (i : Z) : W Q :=
  (tell (GetQual i) ;;; lift (py_index a i))%W.

Definition set_qual (a : list Q) (i : Z) (v : Q) : W (list Q) :=
  (tell (SetQual i) ;;;
   lift (k ← np_index (length a) i; Ok (<[k := v]> a)))%W.

(** The local variables of the loop of [get_read_alignment]. *)
Record scan_state : Type := mkScan {
  range_one_hot : list (list Z);
  range_quality : list Q;
  in_range : bool;
  insert_seq_list : list ascii;
  insert_qual_list : list Q
}.

Definition nonempty {A : Type} (l : list A) : bool :=
  match l with
  | [] => false
  | _ :: _ => true
  end.

Definition read_base (read : Read) (read_index : Z) : result ascii :=
  py_index (list_ascii_of_string (query_sequence read)) read_index.

Definition read_qual (read : Read) (read_index : Z) : result Q :=
  py_index (query_qualities read) read_index.

(** The forward-strand fold, the same statements in the match and in the
    deletion branch. *)
Definition fold_forward (region : Region) (st : scan_state) (ref_index : Z)
  : W scan_state :=
  (code <~ lift (insert_seq_index (insert_seq_list st)) ;;
   hot <~ set_hot (range_one_hot st) (ref_index - start region - 1) 5 code ;;
   q0 <~ get_qual (range_quality st) (ref_index - start region - 1) ;;
   m <~ lift (requality ([q0] ++ insert_qual_list st)) ;;
   qual <~ set_qual (range_quality st) (ref_index - start region - 1) m ;;
   wret (mkScan hot qual (in_range st) [] []))%W.

(** [# match encoding] *)
Definition encode_match (read : Read) (region : Region) (st : scan_state)
    (read_index ref_index : Z) : W scan_state :=
  (if nonempty (insert_seq_list st) then
     match strand region with
     | Plus => fold_forward region st ref_index
     | Minus =>
         code <~ lift (insert_seq_index (insert_seq_list st)) ;;
         hot <~ set_hot (range_one_hot st) (ref_index - start region) 5 code ;;
         b <~ lift (read_base read read_index) ;;
         col <~ lift (of_option KeyError (_BASE_INTS b)) ;;
         hot' <~ set_hot hot (ref_index - start region) col 1 ;;
         qb <~ lift (read_qual read read_index) ;;
         m <~ lift (requality (insert_qual_list st ++ [qb])) ;;
         qual <~ set_qual (range_quality st) (ref_index - start region) m ;;
         wret (mkScan hot' qual (in_range st) [] [])
     end
   else
     b <~ lift (read_base read read_index) ;;
     col <~ lift (of_option KeyError (_BASE_INTS b)) ;;
     hot <~ set_hot (range_one_hot st) (ref_index - start region) col 1 ;;
     qb <~ lift (read_qual read read_index) ;;
     qual <~ set_qual (range_quality st) (ref_index - start region) qb ;;
     wret (mkScan hot qual (in_range st)
             (insert_seq_list st) (insert_qual_list st)))%W.

(** [# insertion encoding] *)
Definition encode_insertion (read : Read) (st : scan_state) (read_index : Z)
  : W scan_state :=
  (b <~ lift (read_base read read_index) ;;
   qb <~ lift (read_qual read read_index) ;;
   if nonempty (insert_seq_list st) && nonempty (insert_qual_list st) then
     wret (mkScan (range_one_hot st) (range_quality st) (in_range st)
             (insert_seq_list st ++ [b]) (insert_qual_list st ++ [qb]))
   else
     wret (mkScan (range_one_hot st) (range_quality st) (in_range st)
             [b] [qb]))%W.

(** [# deletion encoding] *)
Definition encode_deletion (region : Region) (st : scan_state) (ref_index : Z)
  : W scan_state :=
  (if nonempty (insert_seq_list st) then
     match strand region with
     | Plus => fold_forward region st ref_index
     | Minus =>
         code <~ lift (insert_seq_index (insert_seq_list st)) ;;
         hot <~ set_hot (range_one_hot st) (ref_index - start region) 5 code ;;
         hot' <~ set_hot hot (ref_index - start region) 4 1 ;;
         wret (mkScan hot' (range_quality st) (in_range st) [] [])
     end
   else
     hot <~ set_hot (range_one_hot st) (ref_index - start region) 4 1 ;;
     wret (mkScan hot (range_quality st) (in_range st)
             (insert_seq_list st) (insert_qual_list st)))%W.

(** The [if in_range:] block.  [if read_index:] and [if ref_index:] test
    the truth value of an [Optional[int]]. *)
Definition encode_pair (read : Read) (region : Region) (st : scan_state)
    (read_index ref_index : option Z) : W scan_state :=
  if in_range st then
    if truthy read_index then
      if truthy ref_index then
        encode_match read region st
          (default 0 read_index) (default 0 ref_index)
      else encode_insertion read st (default 0 read_index)
    else if truthy ref_index then
      encode_deletion region st (default 0 ref_index)
    else wret st
  else wret st.

Definition set_in_range (st : scan_state) : scan_state :=
  mkScan (range_one_hot st) (range_quality st) true
    (insert_seq_list st) (insert_qual_list st).

(** [ref_index == region.start]: [None] equals no integer. *)
Definition ref_equals (ref_index : option Z) (v : Z) : bool :=
  match ref_index with
  | Some r => r =? v
  | None => false
  end.

(** One iteration of the loop; [None] is [break]. *)
Definition scan_step (read : Read) (region : Region) (st : scan_state)
    (p : option Z * option Z) : W (option scan_state) :=
  let '(read_index, ref_index) := p in
  if ref_equals ref_index (start region) then
    (st' <~ encode_pair read region (set_in_range st) read_index ref_index ;;
     wret (Some st'))%W
  else if truthy ref_index && (end_ region <=? default 0 ref_index) then
    wret None
  else
    (st' <~ encode_pair read region st read_index ref_index ;;
     wret (Some st'))%W.

Fixpoint scan (read : Read) (region : Region)
    (pairs : list (option Z * option Z)) (st : scan_state) : W scan_state :=
  match pairs with
  | [] => wret st
  | p :: pairs' =>
      (o <~ scan_step read region st p ;;
       match o with
       | Some st' => scan read region pairs' st'
       | None => wret st
       end)%W
  end.

Definition init_state (ali_window : Z) : scan_state :=
  mkScan (replicate (Z.to_nat ali_window) (replicate 6 0))
         (replicate (Z.to_nat ali_window) qzero)
         false [] [].

Definition read_strand (read : Read) : Strand :=
  if is_reverse read then Minus else Plus.

(** [get_read_alignment]: [None] is the empty dictionary.  [np.zeros]
    raises [ValueError] for a negative dimension. *)
Definition get_read_alignment (read : Read) (region : Region) (ali_window : Z)
  : W (option ReadFeatures) :=
  if negb (Strand_eqb (read_strand read) (strand region)) then wret None
  else if ali_window <? 0 then lift (Err ValueError)
  else
    (st <~ scan read region (aligned_pairs read) (init_state ali_window) ;;
     if any_nonzero (range_one_hot st) then
       wret (Some (mkFeatures (query_name read)
                     (range_one_hot st) (range_quality st)))
     else wret None)%W.

(** ** The region batch driver

    The file system is a finite map from paths to files; [io_log] records
    the operations on the alignment source and on the output directory in
    the order in which they happen.  For a contig and an interval, [fetch]
    gives the reads that the iterator of an alignment source yields, and
    the exception that ends the iteration when there is one (a contig or
    an interval that the source does not have, a source without index, a
    truncated file). *)

Inductive File : Type :=
| AlignmentSource (fetch : string -> Z -> Z -> list Read * option exn)
| NpyInt (a : list (list (list Z)))
| NpyFloat (a : list (list Q))
| EmptyFile.

Inductive io_event : Type :=
| EvOpen (path : string)
| EvRead (name : string)
| EvClose (path : string)
| EvSave (path : string)
| EvTouch (path : string).

Record World : Type := mkWorld {
  files : gmap string File;
  io_log : list io_event
}.

Definition is_file (w : World) (path : string) : bool :=
  bool_decide (is_Some (files w !! path)).

Definition log_io (w : World) (l : list io_event) : World :=
  mkWorld (files w) (io_log w ++ l).

(** [np.save(path, array)] *)
Definition np_save (w : World) (path : string) (f : File) : World :=
  mkWorld (<[path := f]> (files w)) (io_log w ++ [EvSave path]).

(** [Path.touch()]: an existing file keeps its content. *)
Definition touch (w : World) (path : string) : World :=
  mkWorld (if is_file w path then files w else <[path := EmptyFile]> (files w))
          (io_log w ++ [EvTouch path]).

Definition done_path (output_dir region_string : string) : string :=
  output_dir +:+ "/" +:+ region_string +:+ ".ali.done".

Definition alignment_path (output_dir region_string : string) : string :=
  output_dir +:+ "/" +:+ region_string +:+ ".reads_alignment.npy".

Definition quality_path (output_dir region_string : string) : string :=
  output_dir +:+ "/" +:+ region_string +:+ ".reads_quality.npy".

(** The [for read in sam_query_reader.fetch(...)] loop: the reads taken
    from the source and the two accumulated lists. *)
Fixpoint read_loop (region : Region) (ali_window : Z) (reads : list Read)
    (reads_alignment : list (list (list Z))) (reads_quality : list (list Q))
  : list io_event * result (list (list (list Z)) * list (list Q)) :=
  match reads with
  | [] => ([], Ok (reads_alignment, reads_quality))
  | read :: reads' =>
      match snd (get_read_alignment read region ali_window) with
      | Err e => ([EvRead (query_name read)], Err e)
      | Ok read_features_dict =>
          let '(l, r) :=
            match read_features_dict with
            | Some d =>
                read_loop region ali_window reads'
                  (reads_alignment ++ [alignment d])
                  (reads_quality ++ [quality d])
            | None =>
                read_loop region ali_window reads' reads_alignment reads_quality
            end in
          (EvRead (query_name read) :: l, r)
      end
  end.

Definition region_args : Type := Region * string * string * Z * string * bool.

Definition get_region_alignment (args : region_args) (w : World)
  : World * result () :=
  let '(region, region_string, alignment_file,
        ali_window, output_dir, overwrite) := args in
  let region_done := done_path output_dir region_string in
  if negb overwrite && is_file w region_done then (w, Ok ())
  else
    match files w !! alignment_file with
    | Some (AlignmentSource fetch) =>
        let '(reads, raised) :=
          fetch (chrom region) (start region) (end_ region) in
        let '(l, r) := read_loop region ali_window reads [] [] in
        let w1 := log_io w (EvOpen alignment_file :: l) in
        match r, raised with
        | Err e, _ => (w1, Err e)
        | Ok _, Some e => (w1, Err e)
        | Ok (reads_alignment, reads_quality), None =>
            let w2 := log_io w1 [EvClose alignment_file] in
            let w3 := np_save w2 (alignment_path output_dir region_string)
                        (NpyInt reads_alignment) in
            let w4 := np_save w3 (quality_path output_dir region_string)
                        (NpyFloat reads_quality) in
            (touch w4 region_done, Ok ())
        end
    | _ => (w, Err OSError)
    end.

End Encoder.


Arguments mkRead {Q}.
Arguments query_name {Q}.
Arguments is_reverse {Q}.
Arguments aligned_pairs {Q}.
Arguments query_sequence {Q}.
Arguments query_qualities {Q}.
Arguments mkFeatures {Q}.
Arguments read_id {Q}.
Arguments alignment {Q}.
Arguments quality {Q}.
Arguments mkScan {Q}.
Arguments range_one_hot {Q}.
Arguments range_quality {Q}.
Arguments in_range {Q}.
Arguments insert_seq_list {Q}.
Arguments insert_qual_list {Q}.
Arguments set_in_range {Q}.
Arguments read_strand {Q}.
Arguments read_base {Q}.
Arguments read_qual {Q}.
Arguments get_qual {Q}.
Arguments set_qual {Q}.
Arguments fold_forward {Q}.
Arguments encode_match {Q}.
Arguments encode_insertion {Q}.
Arguments encode_deletion {Q}.
Arguments encode_pair {Q}.
Arguments scan_step {Q}.
Arguments scan {Q}.
Arguments init_state {Q}.
Arguments get_read_alignment {Q}.
Arguments AlignmentSource {Q}.
Arguments NpyInt {Q}.
Arguments NpyFloat {Q}.
Arguments EmptyFile {Q}.
Arguments mkWorld {Q}.
Arguments files {Q}.
Arguments io_log {Q}.
Arguments is_file {Q}.
Arguments log_io {Q}.
Arguments np_save {Q}.
Arguments touch {Q}.
Arguments read_loop {Q}.
Arguments get_region_alignment {Q}.

(** ** Vocabulary of the statements *)

(** The four bases of an insertion run and their base-4 digits. *)
Definition is_base (c : ascii) : bool :=
  Ascii.eqb c "A" || Ascii.eqb c "C" || Ascii.eqb c "G" || Ascii.eqb c "T".

Definition base_digit (c : ascii) : Z :=
  if Ascii.eqb c "C" then 1
  else if Ascii.eqb c "G" then 2
  else if Ascii.eqb c "T" then 3
  else 0.

(** The base-4 integer with the digits [ds] after the digits read so far,
    whose value is [acc]. *)
Definition base4_from (acc : Z) (l : list ascii) : Z :=
  fold_left (fun v b => 4 * v + base_digit b) l acc.

(** Leading digit 1, then the digits of the run in read order. *)
Definition base4_value (l : list ascii) : Z := base4_from 1 l.

(** Runs of this length and longer overflow a signed 64-bit integer. *)
Definition overflow_threshold : nat := 32.

(** The words of the claims on merged qualities, every operation on
    binary64 numbers: the error probability of a quality,
    [p = 10^(-q/10)]. *)
Definition phred_error (q : float) : result float :=
  py_pow10 (- q / 10)%float.

(** [prod_i (1 - p_i)], the factors taken from left to right. *)
Definition factor_product (ps : list float) : float :=
  fold_left (fun acc p => acc * (1 - p))%float ps 1%float.

(** [combined = 1 - prod_i (1 - p_i)], the probability that a base of
    the run is wrong. *)
Definition combined_error (l : list float) : result float :=
  ps ← mapM phred_error l;
  Ok (1 - factor_product ps)%float.

(** The Phred-scaled value [-10 * log10 x]. *)
Definition phred_scale (x : float) : result float :=
  v ← math_log10 x;
  Ok (-10 * v)%float.

(** The merged quality as the specification words it,
    [-10 * log10 (1 - combined)], and with the argument that the
    merge of one quality needs, [-10 * log10 combined]. *)
Definition merge_quality_claimed (l : list float) : result float :=
  c ← combined_error l;
  phred_scale (1 - c)%float.

Definition merge_quality (l : list float) : result float :=
  c ← combined_error l;
  phred_scale c.

(** [r] is a finite number at most [tol] away from the integer [q]. *)
Definition within (tol : Q) (r : float) (q : Z) : Prop :=
  is_finite r = true /\ (Qabs (float_Q r - inject_Z q) <= tol)%Q.

(** The integers [lo], [lo + 1], ..., [lo + n - 1]. *)
Definition Z_range (lo : Z) (n : nat) : list Z :=
  map (fun k => lo + Z.of_nat k) (seq 0 n).

(** The merge of the one quality [q] returns a number within [10^-6] of
    [q]. *)
Definition singleton_ok (q : Z) : bool :=
  match insert_requality [float_of_Z q] with
  | Ok r =>
      is_finite r && Qle_bool (Qabs (float_Q r - inject_Z q)) (1 # 1000000)
  | Err _ => false
  end.

(** The factor [1 - 10 ** (-q / 10)] of the quality [q] is the float 1. *)
Definition factor_is_one (q : Z) : bool :=
  match py_pow10 (- float_of_Z q / 10)%float with
  | Ok p => PrimFloat.Leibniz.eqb (1 - p)%float 1%float
  | Err _ => false
  end.


(** The reference positions of the aligned pairs that have one. *)
Definition ref_positions (pairs : list (option Z * option Z)) : list Z :=
  omap snd pairs.

(** The alignment source yields reference positions in increasing order. *)
Definition ref_increasing (pairs : list (option Z * option Z)) : Prop :=
  StronglySorted Z.lt (ref_positions pairs).

(** What the loop knows about the pairs still to come: before the region
    start was seen no insertion run is pending and the positions increase;
    afterwards they all lie beyond the region start. *)
Definition scan_inv {Q : Type} (region : Region) (st : scan_state Q)
    (pairs : list (option Z * option Z)) : Prop :=
  if in_range st
  then Forall (fun v => start region < v) (ref_positions pairs)
  else insert_seq_list st = [] /\ StronglySorted Z.lt (ref_positions pairs).

(** A computation whose accesses all satisfy [P] and whose value, when
    there is one, satisfies [post]. *)
Definition wp {A : Type} (P : access -> Prop) (m : W A) (post : A -> Prop)
  : Prop :=
  Forall P (fst m) /\ forall a, snd m = Ok a -> post a.

Definition row_in (n : Z) (a : access) : Prop := 0 <= access_row a < n.

(** All reads of a list encoded, an exception at the first read that
    raises one. *)
Fixpoint encode_all {Q : Type} (qzero : Q) (requality : list Q -> result Q)
    (region : Region) (ali_window : Z) (reads : list (Read Q))
  : result (list (option (ReadFeatures Q))) :=
  match reads with
  | [] => Ok []
  | read :: reads' =>
      d ← snd (get_read_alignment qzero requality read region ali_window);
      ds ← encode_all qzero requality region ali_window reads';
      Ok (d :: ds)
  end.

(** The reads that the loop of the driver takes from the source: all of
    them, or those up to the first one on which the encoder raises. *)
Fixpoint reads_taken {Q : Type} (qzero : Q) (requality : list Q -> result Q)
    (region : Region) (ali_window : Z) (reads : list (Read Q))
  : list (Read Q) :=
  match reads with
  | [] => []
  | read :: reads' =>
      read ::
      match snd (get_read_alignment qzero requality read region ali_window) with
      | Ok _ => reads_taken qzero requality region ali_window reads'
      | Err _ => []
      end
  end.

Definition read_events {Q : Type} (reads : list (Read Q)) : list io_event :=
  map (fun read => EvRead (query_name read)) reads.

Definition all_zero (a : list (list Z)) : Prop :=
  Forall (Forall (fun v => v = 0)) a.

(** A row of the alignment tensor: six channels, every entry a
    non-negative signed 64-bit integer, the five base and deletion channels
    0 or 1. *)
Definition row_ok (row : list Z) : Prop :=
  length row = 6%nat /\
  Forall (fun v => 0 <= v <= INT64_MAX) row /\
  Forall (fun v => v = 0 \/ v = 1) (take 5 row).

(** The shape and the entries of the two arrays of a scan state. *)
Definition arrays_ok {Q : Type} (n : nat) (st : scan_state Q) : Prop :=
  length (range_one_hot st) = n /\
  Forall row_ok (range_one_hot st) /\
  length (range_quality st) = n.




(** A run of [n] aligned pairs without a gap, from read position [ri]
    and reference position [rf] on. *)
Fixpoint match_pairs (ri rf : Z) (n : nat) : list (option Z * option Z) :=
  match n with
  | O => []
  | S n' => (Some ri, Some rf) :: match_pairs (ri + 1) (rf + 1) n'
  end.

(** The read has, from position [ri] on, bases with the channels [cols]
    and the qualities [quals]. *)
Fixpoint matched {Q : Type} (read : Read Q) (ri : Z) (cols : list Z)
    (quals : list Q) : Prop :=
  match cols, quals with
  | [], [] => True
  | col :: cols', q :: quals' =>
      (exists base, read_base read ri = Ok base /\
                    _BASE_INTS base = Some col) /\
      read_qual read ri = Ok q /\
      matched read (ri + 1) cols' quals'
  | _, _ => False
  end.

(** The row of the tensor with a 1 in channel [col] and 0 elsewhere. *)
Definition onehot_row (col : Z) : list Z :=
  <[Z.to_nat col := 1]> (replicate 6 0).

(** ** The reference reader ([src/CatMOD/reader/fasta.py])

    A dictionary literal is the list of its items; the one-hot tables hold
    Python floats, which [numpy.array(..., dtype=numpy.float32)] rounds to
    binary32. *)

Fixpoint dict_get {V : Type} (items : list (ascii * V)) (key : ascii)
  : option V :=
  match items with
  | [] => None
  | (k, v) :: items' => if Ascii.eqb k key then Some v else dict_get items' key
  end.

Definition _COMP_BASE : list (ascii * ascii) :=
  [("A", "T"); ("C", "G"); ("G", "C"); ("T", "A"); ("M", "K"); ("R", "Y");
   ("W", "S"); ("S", "W"); ("Y", "R"); ("K", "M"); ("V", "B"); ("H", "D");
   ("D", "H"); ("B", "V"); ("N", "N")]%char.

Definition _BASE_ONEHOT : list (ascii * list float) :=
  [("A"%char, [1; 0; 0; 0]);
   ("C"%char, [0; 1; 0; 0]);
   ("G"%char, [0; 0; 1; 0]);
   ("T"%char, [0; 0; 0; 1]);
   ("M"%char, [0.5; 0.5; 0; 0]);
   ("R"%char, [0.5; 0; 0.5; 0]);
   ("W"%char, [0.5; 0; 0; 0.5]);
   ("S"%char, [0; 0.5; 0.5; 0]);
   ("Y"%char, [0; 0.5; 0; 0.5]);
   ("K"%char, [0; 0; 0.5; 0.5]);
   ("V"%char, [1/3; 1/3; 1/3; 0]);
   ("H"%char, [1/3; 1/3; 0; 1/3]);
   ("D"%char, [1/3; 0; 1/3; 1/3]);
   ("B"%char, [0; 1/3; 1/3; 1/3]);
   ("N"%char, [0.25; 0.25; 0.25; 0.25])]%float.

Definition _BASE_ONEHOT_REV : list (ascii * list float) :=
  [("T"%char, [1; 0; 0; 0]);
   ("G"%char, [0; 1; 0; 0]);
   ("C"%char, [0; 0; 1; 0]);
   ("A"%char, [0; 0; 0; 1]);
   ("K"%char, [0.5; 0.5; 0; 0]);
   ("Y"%char, [0.5; 0; 0.5; 0]);
   ("S"%char, [0.5; 0; 0; 0.5]);
   ("W"%char, [0; 0.5; 0.5; 0]);
   ("R"%char, [0; 0.5; 0; 0.5]);
   ("M"%char, [0; 0; 0.5; 0.5]);
   ("B"%char, [1/3; 1/3; 1/3; 0]);
   ("D"%char, [1/3; 1/3; 0; 1/3]);
   ("H"%char, [1/3; 0; 1/3; 1/3]);
   ("V"%char, [0; 1/3; 1/3; 1/3]);
   ("N"%char, [0.25; 0.25; 0.25; 0.25])]%float.

(** [[table[b] for b in sequence]], a [KeyError] at the first character
    that is not a key. *)
Fixpoint lookup_all {V : Type} (table : list (ascii * V)) (l : list ascii)
  : result (list V) :=
  match l with
  | [] => Ok []
  | b :: l' =>
      v ← of_option KeyError (dict_get table b);
      vs ← lookup_all table l';
      Ok (v :: vs)
  end.

Definition seq2array (sequence : string) (if_reverse : bool)
  : result (list (list float)) :=
  rows ← (if if_reverse
          then lookup_all _BASE_ONEHOT_REV (rev (list_ascii_of_string sequence))
          else lookup_all _BASE_ONEHOT (list_ascii_of_string sequence));
  Ok (map (map to_float32) rows).

(** [str.upper()] on the characters of a FASTA file (ASCII). *)
Definition upper_char (c : ascii) : ascii :=
  let n := nat_of_ascii c in
  if (97 <=? n)%nat && (n <=? 122)%nat then ascii_of_nat (n - 32) else c.

Definition upper (s : string) : string :=
  string_of_list_ascii (map upper_char (list_ascii_of_string s)).

(** [''.join([_COMP_BASE[b] for b in sequence[::-1]])] *)
Definition reverse_complement (sequence : string) : result string :=
  l ← lookup_all _COMP_BASE (rev (list_ascii_of_string sequence));
  Ok (string_of_list_ascii l).

(** What [FastaReader.fetch] returns: a string, or an array when
    [return_array] is set. *)
Inductive fetched : Type :=
| FetchedSeq (s : string)
| FetchedArray (a : list (list float)).

(** [FastaReader.fetch]; [fasta_file] is the indexed file, a function from
    the coordinates to the sequence or to the exception of the library. *)
Definition FastaReader_fetch (fasta_file : string -> Z -> Z -> result string)
    (chrom : string) (start_ end' : Z) (strand_ : string) (return_array : bool)
  : result fetched :=
  if return_array then
    if String.eqb strand_ "+" then
      s ← fasta_file chrom start_ end';
      a ← seq2array (upper s) false;
      Ok (FetchedArray a)
    else if String.eqb strand_ "-" then
      s ← fasta_file chrom start_ end';
      a ← seq2array (upper s) true;
      Ok (FetchedArray a)
    else Err ValueError
  else
    if String.eqb strand_ "+" then
      s ← fasta_file chrom start_ end';
      Ok (FetchedSeq (upper s))
    else if String.eqb strand_ "-" then
      s ← fasta_file chrom start_ end';
      rc ← reverse_complement (upper s);
      Ok (FetchedSeq rc)
    else Err ValueError.

Definition strand_string (s : Strand) : string :=
  match s with
  | Plus => "+"
  | Minus => "-"
  end.

Definition FastaReader_fetch_region
    (fasta_file : string -> Z -> Z -> result string)
    (region : Region) (return_array : bool) : result fetched :=
  FastaReader_fetch fasta_file (chrom region) (start region) (end_ region)
    (strand_string (strand region)) return_array.

(** The characters of the IUPAC alphabet, the keys of the three tables. *)
Definition is_iupac (c : ascii) : bool :=
  match dict_get _COMP_BASE c with
  | Some _ => true
  | None => false
  end.

(** ** Region keys and the callers of the region module *)

(** [str(n)] for an integer. *)
Definition str_Z (n : Z) : string := NilZero.string_of_int (Z.to_int n).

(** [Region.__str__]: [f'{chrom}_{strand}_{start}-{end}']. *)
Definition Region_str (self : Region) : string :=
  chrom self +:+ "_" +:+ strand_string (strand self) +:+ "_" +:+
  str_Z (start self) +:+ "-" +:+ str_Z (end_ self).

(** The loop of [ExtractFeatures.extract_alignment]
    ([src/CatMOD/extract_features.py]) that builds the arguments of the
    workers: a copy of each region is resized to the alignment window,
    with the length of its chromosome as the limit when the index has one,
    and goes with the key of the region as it was read.  [None] when a
    [resize] does not return within [fuel] calls. *)
Definition alignment_args (fuel : nat) (region_list : list Region)
    (ali_window : Z) (chr_length : gmap string Z)
    (indexed_bam output_str : string) (overwrite : bool)
  : option (list region_args) :=
  mapM (fun each_region =>
          ali_region ← resize fuel each_region ali_window
                         (chr_length !! chrom each_region);
          Some (ali_region, Region_str each_region, indexed_bam,
                ali_window, output_str, overwrite))
       region_list.

(** [s.split(sep)] for a separator of one character. *)
Fixpoint split (sep : ascii) (s : string) : list string :=
  match s with
  | EmptyString => [EmptyString]
  | String c s' =>
      if Ascii.eqb c sep then EmptyString :: split sep s'
      else
        match split sep s' with
        | h :: t => String c h :: t
        | [] => [String c EmptyString]
        end
  end.

(** [predict_sample] ([src/CatMOD/predict.py]).  [is_file] says whether
    the feature file of the region exists; [pred] and [proba] are the two
    strings that come from the classifier. *)
Definition predict_sample (is_file : bool) (pred proba : string)
    (datasets_region : string) : result (list string) :=
  if is_file then
    part ← py_index (split "/" datasets_region) 1;
    let spregion := split "_" part in
    field ← py_index spregion 2;
    let spposition := split "-" field in
    c ← py_index spregion 0;
    p0 ← py_index spposition 0;
    p1 ← py_index spposition 1;
    s ← py_index spregion 1;
    Ok [c; p0; p1; pred; proba; s]
  else Ok [].

(** The string has the character. *)
Fixpoint has_char (c : ascii) (s : string) : bool :=
  match s with
  | EmptyString => false
  | String c' s' => Ascii.eqb c' c || has_char c s'
  end.

(** A row of the reference array: four finite weights between 0 and 1
    whose sum, taken exactly, is 1 or [1 + 2^-25]. *)
Definition row_is_distribution (row : list float) : Prop :=
  length row = 4%nat /\
  Forall (fun v => is_finite v = true /\ (0 <= float_Q v <= 1)%Q) row /\
  let total := fold_right Qplus 0%Q (map float_Q row) in
  (total == 1 \/ total == 1 + (1 # 33554432))%Q.

Definition row_check (row : list float) : bool :=
  (length row =? 4)%nat &&
  forallb (fun v => is_finite v && Qle_bool 0 (float_Q v)
                    && Qle_bool (float_Q v) 1) row &&
  let total := fold_right Qplus 0%Q (map float_Q row) in
  (Qeq_bool total 1 || Qeq_bool total (1 + (1 # 33554432))).

(** * Properties of [Region.resize] *)

(** A region that the constructor accepts is valid. *)
Lemma Region_init_valid c s e st i o r :
  Region_init c s e st i o = Ok r -> start r <= end_ r.
Proof.
  unfold Region_init. destruct (Z.leb_spec s e) as [Hle |]; [|discriminate].
  destruct (strand_of_string st); [|discriminate].
  intros [= <-]. exact Hle.
Qed.

Lemma width_set_bounds r s e o : width (set_bounds r s e o) = e - s.
Proof. reflexivity. Qed.

Lemma width_recenter r : width (recenter r) = 1.
Proof. unfold recenter. cbv zeta. rewrite width_set_bounds. lia. Qed.

(** Every branch of the grow path ends with the requested width. *)
Lemma width_grow r window limit : width (grow r window limit) = window.
Proof.
  unfold grow. cbv zeta.
  set (d := window - (end_ r - start r)).
  destruct (start r - d / 2 - offset r <=? 0); [rewrite width_set_bounds; lia|].
  destruct (right_limit r (d / 2) limit); [rewrite width_set_bounds; lia|].
  destruct (d mod 2 =? 0) eqn:Hpar.
  - apply Z.eqb_eq in Hpar. rewrite width_set_bounds.
    pose proof (Z.div_mod d 2 ltac:(lia)). lia.
  - apply Z.eqb_neq in Hpar.
    pose proof (Z.div_mod d 2 ltac:(lia)).
    pose proof (Z.mod_pos_bound d 2 ltac:(lia)).
    destruct (negb (offset r =? 0)); rewrite width_set_bounds; lia.
Qed.

Lemma resize_grow n r window limit :
  width r < window -> resize (S n) r window limit = Some (grow r window limit).
Proof.
  unfold width. intros H. simpl.
  destruct (Z.ltb_spec (end_ r - start r) window); [reflexivity | lia].
Qed.

Lemma resize_noop n r window limit :
  width r = window -> resize (S n) r window limit = Some r.
Proof.
  unfold width. intros H. simpl.
  destruct (Z.ltb_spec (end_ r - start r) window); [lia|].
  destruct (Z.ltb_spec window (end_ r - start r)); [lia | reflexivity].
Qed.

Lemma resize_shrink n r window limit :
  window < width r ->
  resize (S n) r window limit = resize n (recenter r) window limit.
Proof.
  unfold width. intros H. simpl.
  destruct (Z.ltb_spec (end_ r - start r) window); [lia|].
  destruct (Z.ltb_spec window (end_ r - start r)); [reflexivity | lia].
Qed.

(** Depth two is enough for a window of at least one base, and the result
    has the requested width. *)
Lemma resize_two n r window limit :
  1 <= window ->
  exists r', resize (2 + n) r window limit = Some r' /\ width r' = window.
Proof.
  intros Hw. change (2 + n)%nat with (S (S n)).
  destruct (Z.lt_trichotomy (width r) window) as [Hlt | [Heq | Hgt]].
  - rewrite resize_grow by exact Hlt. eexists; split; [reflexivity|].
    apply width_grow.
  - rewrite resize_noop by exact Heq. eauto.
  - rewrite resize_shrink by exact Hgt.
    pose proof (width_recenter r) as H1.
    destruct (Z.eq_dec window 1) as [-> | Hne].
    + rewrite resize_noop by exact H1. eauto.
    + rewrite resize_grow by lia. eexists; split; [reflexivity|].
      apply width_grow.
Qed.

(** The result does not depend on the depth allowed beyond the second. *)
Lemma resize_two_stable n r window limit :
  1 <= window -> resize (2 + n) r window limit = resize 2 r window limit.
Proof.
  intros Hw. change (2 + n)%nat with (S (S n)).
  destruct (Z.lt_trichotomy (width r) window) as [Hlt | [Heq | Hgt]].
  - rewrite (resize_grow (S n)), (resize_grow 1) by exact Hlt. reflexivity.
  - rewrite (resize_noop (S n)), (resize_noop 1) by exact Heq. reflexivity.
  - rewrite (resize_shrink (S n)), (resize_shrink 1) by exact Hgt.
    pose proof (width_recenter r) as H1.
    destruct (Z.eq_dec window 1) as [-> | Hne].
    + rewrite (resize_noop n), (resize_noop 0) by exact H1. reflexivity.
    + rewrite (resize_grow n), (resize_grow 0) by lia. reflexivity.
Qed.

(** A window below one base on a region that is not empty: the shrink
    branch is taken at every depth, the recursion has no end. *)
Lemma resize_diverges fuel : forall r window limit,
  window <= 0 -> 1 <= width r -> resize fuel r window limit = None.
Proof.
  induction fuel as [| fuel IH]; intros r window limit Hw Hr; [reflexivity|].
  rewrite resize_shrink by lia.
  apply IH; [exact Hw | rewrite width_recenter; lia].
Qed.

(** C4, as stated, fails on the empty region [5, 5): resizing it to three
    bases gives [4, 7), and resizing that back to the original width 0
    never returns. *)
Lemma resize_restore_empty_region_counterexample :
  let r := mkRegion "chr1" 5 5 Plus "" 0 in
  start r <= end_ r /\ 1 <= 3 /\
  resize 2 r 3 None = Some (mkRegion "chr1" 4 7 Plus "" 1) /\
  forall fuel, resize fuel (mkRegion "chr1" 4 7 Plus "" 1) (width r) None = None.
Proof.
  cbv zeta. split; [simpl; lia|]. split; [lia|]. split; [reflexivity|].
  intros fuel. apply resize_diverges; unfold width; simpl; lia.
Qed.

(** C4 (amended): for every valid region, every window [w >= 1] and any
    limit, [resize] returns with [end - start = w], in the clamped branches
    too, and a second [resize] to [w] changes nothing; resizing the result
    to the original width restores that width, provided the original width
    is at least 1. *)
Theorem resize_width r w limit :
  start r <= end_ r -> 1 <= w ->
  exists r',
    (forall n, resize (2 + n) r w limit = Some r') /\
    end_ r' - start r' = w /\
    (forall n limit', resize (S n) r' w limit' = Some r') /\
    (1 <= end_ r - start r ->
     forall limit', exists r'',
       (forall n, resize (2 + n) r' (end_ r - start r) limit' = Some r'') /\
       end_ r'' - start r'' = end_ r - start r).
Proof.
  intros Hvalid Hw.
  destruct (resize_two 0 r w limit Hw) as (r' & Hr' & Hwidth).
  exists r'. split; [|split; [|split]].
  - intros n. rewrite resize_two_stable by exact Hw. exact Hr'.
  - exact Hwidth.
  - intros n limit'. apply resize_noop. exact Hwidth.
  - intros Horig limit'.
    destruct (resize_two 0 r' (end_ r - start r) limit' Horig)
      as (r'' & Hr'' & Hwidth'').
    exists r''. split; [|exact Hwidth''].
    intros n. rewrite resize_two_stable by exact Horig. exact Hr''.
Qed.

Lemma resize_width_witness :
  exists r',
    (forall n, resize (2 + n) (mkRegion "chr1" 100 101 Plus "" 0) 10 (Some 105)
               = Some r') /\
    end_ r' - start r' = 10 /\
    (forall n limit', resize (S n) r' 10 limit' = Some r') /\
    (1 <= 101 - 100 ->
     forall limit', exists r'',
       (forall n, resize (2 + n) r' (101 - 100) limit' = Some r'') /\
       end_ r'' - start r'' = 101 - 100).
Proof.
  apply (resize_width (mkRegion "chr1" 100 101 Plus "" 0) 10 (Some 105));
    simpl; lia.
Defined.

(** C10: for a valid region and a window [w >= 1], [resize] returns at
    recursion depth two.  When it shrinks, the region is first reduced to
    width exactly 1, the method calls itself once on that region, and that
    call is not a shrink again: it is the no-op for [w = 1] and the grow
    branch otherwise, and returns without a further call.  When it does
    not shrink it returns without any recursive call. *)
Theorem resize_terminates r w limit :
  start r <= end_ r -> 1 <= w ->
  (exists r', forall n, resize (2 + n) r w limit = Some r') /\
  (w < end_ r - start r ->
   end_ (recenter r) - start (recenter r) = 1 /\
   (forall n, resize (S n) r w limit = resize n (recenter r) w limit) /\
   resize 1 (recenter r) w limit
   = Some (if w =? 1 then recenter r else grow (recenter r) w limit)) /\
  (end_ r - start r <= w ->
   resize 1 r w limit
   = Some (if w =? end_ r - start r then r else grow r w limit)).
Proof.
  intros Hvalid Hw. split; [|split].
  - destruct (resize_two 0 r w limit Hw) as (r' & Hr' & _).
    exists r'. intros n. rewrite resize_two_stable by exact Hw. exact Hr'.
  - intros Hshrink. pose proof (width_recenter r) as H1.
    split; [exact H1|]. split.
    + intros n. apply resize_shrink. exact Hshrink.
    + destruct (Z.eqb_spec w 1) as [-> | Hne].
      * apply resize_noop. exact H1.
      * apply resize_grow. lia.
  - intros Hle. destruct (Z.eqb_spec w (end_ r - start r)) as [Heq | Hne].
    + apply resize_noop. unfold width. lia.
    + apply resize_grow. unfold width. lia.
Qed.

Lemma resize_terminates_witness :
  resize 2 (mkRegion "chr1" 100 120 Minus "" 0) 5 None
  = Some (mkRegion "chr1" 108 113 Minus "" 0).
Proof.
  pose proof (resize_terminates (mkRegion "chr1" 100 120 Minus "" 0) 5 None
                ltac:(simpl; lia) ltac:(lia)) as [_ [Hs _]].
  destruct (Hs ltac:(simpl; lia)) as (_ & Hstep & Hcall).
  rewrite (Hstep 1%nat), Hcall. reflexivity.
Defined.

(** * Properties of the insertion merger *)

Lemma is_base_cases c :
  is_base c = true ->
  c = "A"%char \/ c = "C"%char \/ c = "G"%char \/ c = "T"%char.
Proof.
  unfold is_base. intros H.
  destruct (Ascii.eqb_spec c "A"); [tauto|].
  destruct (Ascii.eqb_spec c "C"); [tauto|].
  destruct (Ascii.eqb_spec c "G"); [tauto|].
  destruct (Ascii.eqb_spec c "T"); [tauto|].
  discriminate H.
Qed.

Lemma base_digit_range c : is_base c = true -> 0 <= base_digit c <= 3.
Proof.
  intros H. destruct (is_base_cases c H) as [-> | [-> | [-> | ->]]];
    vm_compute; split; discriminate.
Qed.

Lemma base_digit_inj c1 c2 :
  is_base c1 = true -> is_base c2 = true ->
  base_digit c1 = base_digit c2 -> c1 = c2.
Proof.
  intros H1 H2.
  destruct (is_base_cases c1 H1) as [-> | [-> | [-> | ->]]];
    destruct (is_base_cases c2 H2) as [-> | [-> | [-> | ->]]];
    vm_compute; intros E; first [reflexivity | discriminate E].
Qed.

Lemma base4_from_cons acc c l :
  base4_from acc (c :: l) = base4_from (4 * acc + base_digit c) l.
Proof. reflexivity. Qed.

(** The digit string of a run of bases parses to its base-4 value. *)
Lemma base_digits_value l :
  Forall (fun c => is_base c = true) l ->
  exists ds,
    base_digits l = Ok ds /\
    forall acc,
      int_digits 4 acc (string_of_list_ascii ds) = Ok (base4_from acc l).
Proof.
  induction 1 as [| c l Hc Hl (ds & Hds & Hval)].
  - exists []. split; [reflexivity | intros acc; reflexivity].
  - assert (exists d, _BASE_INDEX c = Some d /\
              forall acc s, int_digits 4 acc (String d s)
                            = int_digits 4 (4 * acc + base_digit c) s)
      as (d & Hd & Hstep).
    { destruct (is_base_cases c Hc) as [-> | [-> | [-> | ->]]];
        eexists; (split; [reflexivity|]); intros acc s;
        cbn [int_digits];
        match goal with
        | |- context [digit_value ?d] =>
            let v := eval vm_compute in (digit_value d) in
            change (digit_value d) with v
        end;
        match goal with
        | |- context [base_digit ?b] =>
            let v := eval vm_compute in (base_digit b) in
            change (base_digit b) with v
        end;
        cbn -[Z.mul Z.add]; f_equal; lia. }
    exists (d :: ds). split.
    + cbn. rewrite Hd. cbn. rewrite Hds. reflexivity.
    + intros acc. cbn [string_of_list_ascii]. rewrite Hstep, Hval.
      reflexivity.
Qed.

Lemma insert_seq_index_value l :
  Forall (fun c => is_base c = true) l ->
  insert_seq_index l = Ok (Z.min INT64_MAX (base4_value l)).
Proof.
  intros H. destruct (base_digits_value l H) as (ds & Hds & Hval).
  unfold insert_seq_index. rewrite Hds. cbn -[Z.min int_digits].
  change (int_digits 4 0 (String "1" (string_of_list_ascii ds)))
    with (int_digits 4 1 (string_of_list_ascii ds)).
  rewrite Hval. reflexivity.
Qed.

Lemma base4_from_bounds l : forall acc,
  Forall (fun c => is_base c = true) l ->
  acc * 4 ^ Z.of_nat (length l) <= base4_from acc l
  < (acc + 1) * 4 ^ Z.of_nat (length l).
Proof.
  induction l as [| c l IH]; intros acc H.
  - cbn. lia.
  - inversion H as [| ? ? Hc Hl]; subst.
    rewrite base4_from_cons.
    specialize (IH (4 * acc + base_digit c) Hl).
    pose proof (base_digit_range c Hc).
    cbn [length]. rewrite Nat2Z.inj_succ, Z.pow_succ_r by lia.
    assert (0 < 4 ^ Z.of_nat (length l)) by (apply Z.pow_pos_nonneg; lia).
    nia.
Qed.

Lemma base4_from_inj l1 : forall l2 acc1 acc2,
  Forall (fun c => is_base c = true) l1 ->
  Forall (fun c => is_base c = true) l2 ->
  length l1 = length l2 ->
  base4_from acc1 l1 = base4_from acc2 l2 ->
  acc1 = acc2 /\ l1 = l2.
Proof.
  induction l1 as [| c1 l1 IH]; intros [| c2 l2] acc1 acc2 H1 H2 Hlen Heq;
    try discriminate Hlen.
  - split; [exact Heq | reflexivity].
  - inversion H1 as [| ? ? Hc1 Hl1]; inversion H2 as [| ? ? Hc2 Hl2]; subst.
    rewrite !base4_from_cons in Heq.
    destruct (IH l2 _ _ Hl1 Hl2 ltac:(cbn in Hlen; lia) Heq) as [Hacc ->].
    pose proof (base_digit_range c1 Hc1). pose proof (base_digit_range c2 Hc2).
    assert (base_digit c1 = base_digit c2) as Hd by lia.
    split; [lia|]. f_equal. apply base_digit_inj; assumption.
Qed.

Lemma base4_value_fits l :
  Forall (fun c => is_base c = true) l ->
  (length l < overflow_threshold)%nat -> base4_value l <= INT64_MAX.
Proof.
  intros H Hlen. pose proof (base4_from_bounds l 1 H) as [_ Hub].
  unfold overflow_threshold in Hlen.
  assert (4 ^ Z.of_nat (length l) <= 4 ^ 31)
    by (apply Z.pow_le_mono_r; lia).
  change (4 ^ 31) with 4611686018427387904 in *.
  unfold base4_value, INT64_MAX. lia.
Qed.

Lemma base4_value_overflows l :
  Forall (fun c => is_base c = true) l ->
  (overflow_threshold <= length l)%nat -> INT64_MAX < base4_value l.
Proof.
  intros H Hlen. pose proof (base4_from_bounds l 1 H) as [Hlb _].
  unfold overflow_threshold in Hlen.
  assert (4 ^ 32 <= 4 ^ Z.of_nat (length l))
    by (apply Z.pow_le_mono_r; lia).
  change (4 ^ 32) with 18446744073709551616 in *.
  unfold base4_value, INT64_MAX. lia.
Qed.

(** C6: [insert_seq_index] is the base-4 integer with leading digit 1 and
    the digits A:0, C:1, G:2, T:3 in read order, cut at 9223372036854775807.
    Two different runs of one length below the threshold of 32 bases get
    different integers; a run of 32 bases or more gets the ceiling. *)
Theorem insert_seq_index_packing (l1 l2 : list ascii) :
  Forall (fun c => is_base c = true) l1 ->
  Forall (fun c => is_base c = true) l2 ->
  insert_seq_index l1 = Ok (Z.min 9223372036854775807 (base4_value l1)) /\
  (length l1 = length l2 -> (length l1 < overflow_threshold)%nat ->
   l1 <> l2 -> insert_seq_index l1 <> insert_seq_index l2) /\
  ((overflow_threshold <= length l1)%nat ->
   insert_seq_index l1 = Ok 9223372036854775807).
Proof.
  intros H1 H2. split; [|split].
  - apply insert_seq_index_value. exact H1.
  - intros Hlen Hlt Hne Heq.
    rewrite !insert_seq_index_value in Heq by assumption.
    pose proof (base4_value_fits l1 H1 Hlt).
    pose proof (base4_value_fits l2 H2 ltac:(rewrite <- Hlen; exact Hlt)).
    injection Heq as Heq. rewrite !Z.min_r in Heq by assumption.
    apply Hne. eapply base4_from_inj; eassumption.
  - intros Hge. rewrite insert_seq_index_value by exact H1.
    pose proof (base4_value_overflows l1 H1 Hge).
    fold INT64_MAX. rewrite Z.min_l by lia. reflexivity.
Qed.

Lemma insert_seq_index_packing_witness :
  let l1 := ["A"; "C"; "G"]%char in
  let l2 := ["A"; "T"; "G"]%char in
  insert_seq_index l1 = Ok (Z.min 9223372036854775807 (base4_value l1)) /\
  (length l1 = length l2 -> (length l1 < overflow_threshold)%nat ->
   l1 <> l2 -> insert_seq_index l1 <> insert_seq_index l2) /\
  ((overflow_threshold <= length l1)%nat ->
   insert_seq_index l1 = Ok 9223372036854775807).
Proof.
  apply (insert_seq_index_packing ["A"; "C"; "G"]%char ["A"; "T"; "G"]%char);
    repeat constructor.
Defined.

(** ** Merged qualities *)

Lemma Z_range_elem lo n q : lo <= q < lo + Z.of_nat n -> In q (Z_range lo n).
Proof.
  intros H. unfold Z_range. apply in_map_iff. exists (Z.to_nat (q - lo)).
  split; [lia|]. apply in_seq. lia.
Qed.

(** The loop multiplies the factors [1 - p_i] from left to right. *)
Lemma requality_loop_formula l : forall iq,
  requality_loop iq l
  = (ps ← mapM phred_error l;
     Ok (fold_left (fun acc p => acc * (1 - p))%float ps iq)).
Proof.
  induction l as [| q l IH]; intros iq; [reflexivity|].
  cbn [requality_loop mapM].
  change (py_pow10 (- q / 10)) with (phred_error q).
  destruct (phred_error q) as [p | e]; [|reflexivity].
  cbn [mbind result_bind]. rewrite IH.
  destruct (mapM phred_error l); reflexivity.
Qed.

(** On the list [[10]] the code returns 10, and the formula of the claim,
    [-10 * log10 (1 - combined)], a number below 1 (it is 0.4575...).  On
    the list [[200]] the code returns nothing: [combined] rounds to 0 and
    the logarithm raises [ValueError]. *)
Lemma insert_requality_formula_counterexample :
  insert_requality [10%float] = Ok 10%float /\
  (exists v,
     merge_quality_claimed [10%float] = Ok v /\ (v <? 1)%float = true) /\
  insert_requality [200%float] = Err ValueError.
Proof.
  split; [vm_compute; reflexivity|]. split; [|vm_compute; reflexivity].
  eexists. split; vm_compute; reflexivity.
Qed.

(** C3, amended: [insert_requality] computes [-10 * log10 combined] with
    [combined = 1 - prod_i (1 - p_i)] and [p_i = 10^(-q_i/10)], every
    operation rounded to binary64 and the product taken from left to
    right; it raises what the formula raises, [ValueError] where
    [combined] is not positive. *)
Theorem insert_requality_formula l : insert_requality l = merge_quality l.
Proof.
  unfold insert_requality, merge_quality, combined_error, phred_scale,
    factor_product.
  rewrite requality_loop_formula.
  destruct (mapM phred_error l); reflexivity.
Qed.

Lemma singleton_ok_all : forallb singleton_ok (Z_range 0 94) = true.
Proof. vm_compute. reflexivity. Qed.

(** On the list [[170]] the factor [1 - 10^-17] rounds to 1, the
    logarithm is taken at 0 and the code raises [ValueError]; on the list
    [[160]] it returns 159.54..., more than a quarter below 160. *)
Lemma insert_requality_singleton_counterexample :
  insert_requality [170%float] = Err ValueError /\
  exists r, insert_requality [160%float] = Ok r /\ (r <? 159.75)%float = true.
Proof.
  split; [vm_compute; reflexivity|].
  eexists. split; vm_compute; reflexivity.
Qed.

(** C5, amended: for an integer quality [q] of the Phred range, from 0 to
    93, the merge of the list [[q]] returns a number within [10^-6] of
    [q]. *)
Theorem insert_requality_singleton (q : Z) :
  0 <= q <= 93 ->
  exists r, insert_requality [float_of_Z q] = Ok r /\ within (1 # 1000000) r q.
Proof.
  intros Hq. pose proof singleton_ok_all as Hall.
  rewrite forallb_forall in Hall.
  specialize (Hall q (Z_range_elem 0 94 q ltac:(lia))).
  unfold singleton_ok in Hall.
  destruct (insert_requality [float_of_Z q]) as [r |]; [|discriminate].
  apply andb_prop in Hall as [Hfin Hle]. apply Qle_bool_iff in Hle.
  exists r. split; [reflexivity|]. split; assumption.
Qed.

Lemma insert_requality_singleton_witness :
  exists r,
    insert_requality [float_of_Z 30] = Ok r /\ within (1 # 1000000) r 30.
Proof. apply (insert_requality_singleton 30). lia. Defined.

(** * Properties of the encoder *)

Section WpRules.

Context {A B : Type} (P : access -> Prop).

Lemma wp_ret (a : A) (post : A -> Prop) : post a -> wp P (wret a) post.
Proof.
  intros H. split; [constructor|]. cbn. intros a' [= <-]. exact H.
Qed.

Lemma wp_lift (r : result A) (post : A -> Prop) :
  (forall a, r = Ok a -> post a) -> wp P (lift r) post.
Proof. intros H. split; [constructor | exact H]. Qed.

Lemma wp_bind (m : W A) (f : A -> W B) (post : B -> Prop) :
  wp P m (fun a => wp P (f a) post) -> wp P (wbind m f) post.
Proof.
  destruct m as [l [a | e]]; intros [Hl Hpost]; cbn in Hl, Hpost |- *.
  - destruct (Hpost a eq_refl) as [Hl' Hpost'].
    destruct (f a) as [l' r]. cbn in Hl', Hpost' |- *.
    split; [apply Forall_app; split; assumption | exact Hpost'].
  - split; [exact Hl | intros b [=]].
Qed.

Lemma wp_conseq (m : W A) (post post' : A -> Prop) :
  wp P m post -> (forall a, post a -> post' a) -> wp P m post'.
Proof. intros [Hl Hpost] Himp. split; [exact Hl | auto]. Qed.

End WpRules.

Section EncoderRows.

Context {Q : Type} (qzero : Q) (requality : list Q -> result Q).

Lemma wp_set_hot P a i j v (post : list (list Z) -> Prop) :
  P (SetHot i j) -> (forall a', post a') -> wp P (set_hot a i j v) post.
Proof.
  intros HP Hpost. unfold set_hot, tell, lift, wbind. split.
  - cbn. repeat constructor. exact HP.
  - intros a' _. apply Hpost.
Qed.

Lemma wp_get_qual P (a : list Q) i (post : Q -> Prop) :
  P (GetQual i) -> (forall q, post q) -> wp P (get_qual a i) post.
Proof.
  intros HP Hpost. unfold get_qual, tell, lift, wbind. split.
  - cbn. repeat constructor. exact HP.
  - intros q _. apply Hpost.
Qed.

Lemma wp_set_qual P (a : list Q) i v (post : list Q -> Prop) :
  P (SetQual i) -> (forall a', post a') -> wp P (set_qual a i v) post.
Proof.
  intros HP Hpost. unfold set_qual, tell, lift, wbind. split.
  - cbn. repeat constructor. exact HP.
  - intros a' _. apply Hpost.
Qed.

(** One step of a straight-line block of the encoder. *)
Ltac wp_step :=
  lazymatch goal with
  | |- wp _ (wret _) _ => apply wp_ret
  | |- wp _ (wbind _ _) _ => apply wp_bind
  | |- wp _ (lift _) _ => apply wp_lift; intros ? _
  | |- wp _ (set_hot _ _ _ _) _ => apply wp_set_hot; [auto | intros ?]
  | |- wp _ (get_qual _ _) _ => apply wp_get_qual; [auto | intros ?]
  | |- wp _ (set_qual _ _ _) _ => apply wp_set_qual; [auto | intros ?]
  end.

Lemma row_in_set_hot n r c : 0 <= r < n -> row_in n (SetHot r c).
Proof. intros H. exact H. Qed.

Lemma row_in_set_qual n r : 0 <= r < n -> row_in n (SetQual r).
Proof. intros H. exact H. Qed.

Lemma row_in_get_qual n r : 0 <= r < n -> row_in n (GetQual r).
Proof. intros H. exact H. Qed.

Lemma wp_fold_forward n region (st : scan_state Q) ref_index :
  0 <= ref_index - start region - 1 < n ->
  wp (row_in n) (fold_forward requality region st ref_index)
     (fun st' => in_range st' = in_range st).
Proof.
  intros Hrow. unfold fold_forward.
  pose proof (row_in_set_hot n _ 5 Hrow).
  pose proof (row_in_get_qual n _ Hrow).
  pose proof (row_in_set_qual n _ Hrow).
  repeat wp_step. reflexivity.
Qed.

Lemma wp_encode_match n read region (st : scan_state Q) read_index ref_index :
  0 <= ref_index - start region < n ->
  (nonempty (insert_seq_list st) = true -> 0 <= ref_index - start region - 1) ->
  wp (row_in n) (encode_match requality read region st read_index ref_index)
     (fun st' => in_range st' = in_range st).
Proof.
  intros Hrow Hfold. unfold encode_match.
  pose proof (row_in_set_qual n _ Hrow).
  assert (forall c, row_in n (SetHot (ref_index - start region) c))
    by (intros c; apply row_in_set_hot, Hrow).
  destruct (nonempty (insert_seq_list st)).
  - destruct (strand region).
    + apply wp_fold_forward. specialize (Hfold eq_refl). lia.
    + repeat wp_step. reflexivity.
  - repeat wp_step. reflexivity.
Qed.

Lemma wp_encode_deletion n region (st : scan_state Q) ref_index :
  0 <= ref_index - start region < n ->
  (nonempty (insert_seq_list st) = true -> 0 <= ref_index - start region - 1) ->
  wp (row_in n) (encode_deletion requality region st ref_index)
     (fun st' => in_range st' = in_range st).
Proof.
  intros Hrow Hfold. unfold encode_deletion.
  assert (forall c, row_in n (SetHot (ref_index - start region) c))
    by (intros c; apply row_in_set_hot, Hrow).
  destruct (nonempty (insert_seq_list st)).
  - destruct (strand region).
    + apply wp_fold_forward. specialize (Hfold eq_refl). lia.
    + repeat wp_step. reflexivity.
  - repeat wp_step. reflexivity.
Qed.

Lemma wp_encode_insertion P read (st : scan_state Q) read_index :
  wp P (encode_insertion read st read_index)
     (fun st' => in_range st' = in_range st).
Proof.
  unfold encode_insertion. repeat wp_step.
  destruct (nonempty (insert_seq_list st) && nonempty (insert_qual_list st));
    apply wp_ret; reflexivity.
Qed.

(** The accesses of one pair stay inside the window when its reference
    position does; outside the range the state is left as it is. *)
Lemma wp_encode_pair n read region (st : scan_state Q) read_index ref_index :
  (in_range st = true -> forall v, ref_index = Some v -> v <> 0 ->
   0 <= v - start region < n /\
   (nonempty (insert_seq_list st) = true -> 0 <= v - start region - 1)) ->
  wp (row_in n) (encode_pair requality read region st read_index ref_index)
     (fun st' => in_range st' = in_range st /\
                 (in_range st = false -> st' = st)).
Proof.
  intros Hrows. unfold encode_pair.
  destruct (in_range st) eqn:Hin; [|apply wp_ret; auto].
  assert (truthy ref_index = true ->
          0 <= default 0 ref_index - start region < n /\
          (nonempty (insert_seq_list st) = true ->
           0 <= default 0 ref_index - start region - 1)) as Href.
  { destruct ref_index as [v |]; [|discriminate]. cbn. intros Hv.
    apply (Hrows eq_refl v eq_refl).
    destruct (Z.eqb_spec v 0); [discriminate Hv | assumption]. }
  destruct (truthy read_index).
  - destruct (truthy ref_index).
    + destruct (Href eq_refl) as [Hrow Hfold].
      eapply wp_conseq; [apply wp_encode_match; eassumption|].
      cbn. intros st' ->. split; [assumption | congruence].
    + eapply wp_conseq; [apply wp_encode_insertion|].
      cbn. intros st' ->. split; [assumption | congruence].
  - destruct (truthy ref_index).
    + destruct (Href eq_refl) as [Hrow Hfold].
      eapply wp_conseq; [apply wp_encode_deletion; eassumption|].
      cbn. intros st' ->. split; [assumption | congruence].
    + apply wp_ret. split; [assumption | congruence].
Qed.

End EncoderRows.

Section EncoderScan.

Context {Q : Type} (qzero : Q) (requality : list Q -> result Q).

Lemma ref_positions_cons_some read_index v pairs :
  ref_positions ((read_index, Some v) :: pairs) = v :: ref_positions pairs.
Proof. reflexivity. Qed.

Lemma ref_positions_cons_none read_index pairs :
  ref_positions ((read_index, None) :: pairs) = ref_positions pairs.
Proof. reflexivity. Qed.

Lemma scan_inv_same region (st st' : scan_state Q) pairs pairs' :
  in_range st' = in_range st -> (in_range st = false -> st' = st) ->
  (Forall (fun v => start region < v) (ref_positions pairs) ->
   Forall (fun v => start region < v) (ref_positions pairs')) ->
  (StronglySorted Z.lt (ref_positions pairs) ->
   StronglySorted Z.lt (ref_positions pairs')) ->
  scan_inv region st pairs -> scan_inv region st' pairs'.
Proof.
  unfold scan_inv. intros Hin Hsame Hall Hsorted.
  rewrite Hin. destruct (in_range st).
  - exact Hall.
  - rewrite (Hsame eq_refl). intros [Hnil Hs]. auto.
Qed.

Lemma wp_scan read region n :
  n = end_ region - start region -> 1 <= n ->
  forall pairs (st : scan_state Q),
    scan_inv region st pairs ->
    wp (row_in n) (scan requality read region pairs st) (fun _ => True).
Proof.
  intros Hn Hpos. induction pairs as [| [read_index ref_index] pairs IH];
    intros st Hinv; cbn [scan].
  - apply wp_ret. exact I.
  - apply wp_bind. unfold scan_step.
    destruct ref_index as [v |]; cbn [ref_equals truthy from_option];
      try change (Datatypes.id v) with v.
    + destruct (Z.eqb_spec v (start region)) as [-> | Hne].
      * (* the region start: the range opens *)
        assert (in_range st = false /\ insert_seq_list st = [] /\
                Forall (fun v => start region < v) (ref_positions pairs))
          as (Hout & Hnil & Hrest).
        { unfold scan_inv in Hinv. rewrite ref_positions_cons_some in Hinv.
          destruct (in_range st).
          - inversion Hinv; lia.
          - destruct Hinv as [Hnil Hs]. inversion Hs; subst. auto. }
        apply wp_bind. eapply wp_conseq.
        { apply (wp_encode_pair requality n).
          cbn. intros _ v [= <-] _. split; [lia|].
          rewrite Hnil. discriminate. }
        cbn. intros st' [Hin _]. apply wp_ret. apply IH.
        unfold scan_inv. rewrite Hin. exact Hrest.
      * destruct (negb (v =? 0) && (end_ region <=? v)) eqn:Hbreak.
        { apply wp_ret. apply wp_ret. exact I. }
        apply wp_bind. eapply wp_conseq.
        { apply (wp_encode_pair requality n).
          intros Hin w [= <-] Hw0.
          unfold scan_inv in Hinv. rewrite Hin in Hinv.
          rewrite ref_positions_cons_some in Hinv. inversion Hinv; subst.
          destruct (Z.eqb_spec v 0); [contradiction|].
          destruct (Z.leb_spec (end_ region) v); [discriminate Hbreak|].
          lia. }
        cbn. intros st' [Hin Hsame]. apply wp_ret. apply IH.
        eapply scan_inv_same; [exact Hin | exact Hsame | | | exact Hinv].
        -- rewrite ref_positions_cons_some. intros H. inversion H; assumption.
        -- rewrite ref_positions_cons_some. intros H. inversion H; assumption.
    + apply wp_bind. eapply wp_conseq.
      { apply (wp_encode_pair requality n). intros _ v [=]. }
      cbn. intros st' [Hin Hsame]. apply wp_ret. apply IH.
      eapply scan_inv_same; [exact Hin | exact Hsame | | | exact Hinv];
        rewrite ref_positions_cons_none; auto.
Qed.

(** C7: when the window is the width of the region, at least 1, and the
    reference positions of the read come in increasing order, every access
    of the encoder to the alignment tensor and to the quality vector uses a
    row index in [0, window), the [row - 1] accesses of the forward-strand
    fold included. *)
Theorem encoder_rows_in_window (read : Read Q) region ali_window :
  ali_window = end_ region - start region -> 1 <= ali_window ->
  ref_increasing (aligned_pairs read) ->
  Forall (fun a => 0 <= access_row a < ali_window)
    (fst (get_read_alignment qzero requality read region ali_window)).
Proof.
  intros Hwin Hpos Hinc. unfold get_read_alignment.
  destruct (negb (Strand_eqb (read_strand read) (strand region)));
    [constructor|].
  destruct (ali_window <? 0); [constructor|].
  assert (wp (row_in ali_window)
            (scan requality read region (aligned_pairs read)
               (init_state qzero ali_window)) (fun _ => True)) as [Hrows _].
  { apply wp_scan; [exact Hwin | exact Hpos |].
    unfold scan_inv. cbn. split; [reflexivity | exact Hinc]. }
  destruct (scan requality read region (aligned_pairs read)
              (init_state qzero ali_window)) as [l [st | e]];
    cbn in Hrows |- *; [|exact Hrows].
  destruct (any_nonzero (range_one_hot st)); cbn;
    rewrite app_nil_r; exact Hrows.
Qed.

End EncoderScan.

Section EncoderResults.

Context {Q : Type} (qzero : Q) (requality : list Q -> result Q).

Lemma any_nonzero_row (row : list Z) :
  existsb (fun v => negb (v =? 0)) row = false <-> Forall (fun v => v = 0) row.
Proof.
  induction row as [| v row IH]; cbn.
  - split; [constructor | reflexivity].
  - rewrite orb_false_iff, IH, negb_false_iff, Z.eqb_eq. split.
    + intros [Hv Hrow]. constructor; assumption.
    + intros H. inversion H; auto.
Qed.

Lemma any_nonzero_false a : any_nonzero a = false <-> all_zero a.
Proof.
  unfold any_nonzero, all_zero. induction a as [| row a IH]; cbn.
  - split; [constructor | reflexivity].
  - rewrite orb_false_iff, IH, any_nonzero_row. split.
    + intros [Hrow Ha]. constructor; assumption.
    + intros H. inversion H; auto.
Qed.

Lemma Strand_eqb_eq a b : Strand_eqb a b = true <-> a = b.
Proof. destruct a, b; cbn; split; congruence. Qed.

Lemma snd_wbind_ok {A B : Type} (m : W A) (f : A -> W B) a :
  snd m = Ok a -> snd (wbind m f) = snd (f a).
Proof.
  destruct m as [l r]. cbn. intros ->. destruct (f a). reflexivity.
Qed.

Lemma snd_wbind_err {A B : Type} (m : W A) (f : A -> W B) e :
  snd m = Err e -> snd (wbind m f) = Err e.
Proof. destruct m as [l r]. cbn. intros ->. reflexivity. Qed.

(** The three outcomes of [get_read_alignment] on a read of the strand of
    the region. *)
Lemma get_read_alignment_same_strand (read : Read Q) region ali_window :
  read_strand read = strand region -> 0 <= ali_window ->
  snd (get_read_alignment qzero requality read region ali_window)
  = match snd (scan requality read region (aligned_pairs read)
                 (init_state qzero ali_window)) with
    | Ok st =>
        if any_nonzero (range_one_hot st)
        then Ok (Some (mkFeatures (query_name read)
                         (range_one_hot st) (range_quality st)))
        else Ok None
    | Err e => Err e
    end.
Proof.
  intros Hstrand Hwin. unfold get_read_alignment.
  apply Strand_eqb_eq in Hstrand. rewrite Hstrand. cbn [negb].
  destruct (Z.ltb_spec ali_window 0); [lia|].
  destruct (snd (scan requality read region (aligned_pairs read)
                   (init_state qzero ali_window))) as [st | e] eqn:Hscan.
  - rewrite (snd_wbind_ok _ _ st Hscan).
    destruct (any_nonzero (range_one_hot st)); reflexivity.
  - apply snd_wbind_err. exact Hscan.
Qed.

Lemma snd_read_loop_step (e : io_event)
    (x : list io_event * result (list (list (list Z)) * list (list Q))) :
  snd (let '(l, r) := x in (e :: l, r)) = snd x.
Proof. destruct x. reflexivity. Qed.

Lemma read_loop_result region ali_window (reads : list (Read Q)) :
  forall reads_alignment reads_quality,
    snd (read_loop qzero requality region ali_window reads
           reads_alignment reads_quality)
    = (ds ← encode_all qzero requality region ali_window reads;
       Ok (reads_alignment ++ map alignment (omap (fun d => d) ds),
           reads_quality ++ map quality (omap (fun d => d) ds))).
Proof.
  induction reads as [| read reads IH]; intros ra rq; cbn [read_loop encode_all].
  - cbn. rewrite !app_nil_r. reflexivity.
  - destruct (snd (get_read_alignment qzero requality read region ali_window))
      as [[d |] | e]; [| | reflexivity].
    + rewrite snd_read_loop_step, IH. cbn.
      destruct (encode_all qzero requality region ali_window reads); cbn;
        [|reflexivity].
      rewrite <- !app_assoc. reflexivity.
    + rewrite snd_read_loop_step, IH. cbn.
      destruct (encode_all qzero requality region ali_window reads);
        reflexivity.
Qed.

Lemma read_loop_log region ali_window (reads : list (Read Q)) :
  forall reads_alignment reads_quality,
    fst (read_loop qzero requality region ali_window reads
           reads_alignment reads_quality)
    = read_events (reads_taken qzero requality region ali_window reads).
Proof.
  induction reads as [| read reads IH]; intros ra rq;
    cbn [read_loop reads_taken]; [reflexivity|].
  destruct (snd (get_read_alignment qzero requality read region ali_window))
    as [[d |] | e]; [| |reflexivity].
  - specialize (IH (ra ++ [alignment d]) (rq ++ [quality d])).
    destruct (read_loop _ _ _ _ _ _ _). cbn [fst] in IH |- *.
    unfold read_events in *. cbn [map]. f_equal. exact IH.
  - specialize (IH ra rq).
    destruct (read_loop _ _ _ _ _ _ _). cbn [fst] in IH |- *.
    unfold read_events in *. cbn [map]. f_equal. exact IH.
Qed.

Lemma reads_taken_all region ali_window (reads : list (Read Q)) ds :
  encode_all qzero requality region ali_window reads = Ok ds ->
  reads_taken qzero requality region ali_window reads = reads.
Proof.
  revert ds. induction reads as [| read reads IH]; intros ds;
    cbn [encode_all reads_taken]; [reflexivity|].
  destruct (snd (get_read_alignment qzero requality read region ali_window))
    as [d | e]; [|discriminate]. cbn [mbind result_bind].
  destruct (encode_all qzero requality region ali_window reads) as [ds' |];
    [|discriminate].
  intros _. rewrite (IH ds' eq_refl). reflexivity.
Qed.

(** C9: [get_read_alignment] returns the empty result, and no exception,
    exactly when the strand of the read is not the strand of the region or
    the scan ends with an alignment tensor whose entries are all 0; the
    lists of the driver hold the results that are not empty, in the order
    of the reads. *)
Theorem encoder_empty_result (read : Read Q) region ali_window :
  (snd (get_read_alignment qzero requality read region ali_window) = Ok None
   <->
   read_strand read <> strand region \/
   exists st,
     0 <= ali_window /\
     snd (scan requality read region (aligned_pairs read)
            (init_state qzero ali_window)) = Ok st /\
     all_zero (range_one_hot st)) /\
  (forall reads,
     snd (read_loop qzero requality region ali_window reads [] [])
     = (ds ← encode_all qzero requality region ali_window reads;
        Ok (map alignment (omap (fun d => d) ds), map quality (omap (fun d => d) ds)))).
Proof.
  split; [|intros reads; apply read_loop_result].
  destruct (Strand_eqb (read_strand read) (strand region)) eqn:Hs.
  - pose proof (proj1 (Strand_eqb_eq _ _) Hs) as Hsame.
    destruct (Z.ltb_spec ali_window 0) as [Hneg | Hwin].
    + unfold get_read_alignment. rewrite Hs. cbn [negb].
      destruct (Z.ltb_spec ali_window 0); [|lia]. cbn. split.
      * discriminate.
      * intros [Hne | (st & Hw & _)]; [contradiction | lia].
    + rewrite get_read_alignment_same_strand by assumption. split.
      * intros Hres. right.
        destruct (snd (scan _ _ _ _ _)) as [st | e]; [|discriminate].
        exists st. split; [exact Hwin|]. split; [reflexivity|].
        apply any_nonzero_false.
        destruct (any_nonzero (range_one_hot st)); [discriminate | reflexivity].
      * intros [Hne | (st & _ & Hscan & Hzero)]; [contradiction|].
        rewrite Hscan. apply any_nonzero_false in Hzero. rewrite Hzero.
        reflexivity.
  - assert (read_strand read <> strand region) as Hne.
    { intros Heq. apply Strand_eqb_eq in Heq. congruence. }
    unfold get_read_alignment. rewrite Hs. cbn. split; auto.
Qed.

End EncoderResults.

Section EncoderDefects.

Context {Q : Type} (qzero : Q) (requality : list Q -> result Q).

(** The accesses of the encoder on a match at 100, one inserted base and a
    match at 101, forward strand, region [100, 110): the match writes row
    0, the fold reads and writes row 0 again, nothing touches row 1. *)
Lemma forward_fold_accesses (q0 q1 q2 q3 : Q) :
  fst (get_read_alignment qzero requality
         (mkRead "read1" false
            [(Some 1, Some 100); (Some 2, None); (Some 3, Some 101)]
            "TACG" [q0; q1; q2; q3])
         (mkRegion "chr1" 100 110 Plus "" 0) 10)
  = [SetHot 0 0; SetQual 0; SetHot 0 5; GetQual 0] ++
    match requality [q1; q2] with
    | Ok _ => [SetQual 0]
    | Err _ => []
    end.
Proof. vm_compute. destruct (requality [q1; q2]); reflexivity. Qed.

(** C1, the code on a forward-strand read over the region [100, 110): a
    match at 100 (base A), one inserted base C, then a match at 101 (base
    G), or instead a deletion at 101.  The fold writes the code 5 of the
    run into channel 5 of row 0 and the merged quality into row 0, and the
    event at 101 itself leaves no trace: row 1 stays zero in the tensor and
    in the quality vector. *)
Theorem forward_fold_drops_current_event (q0 q1 q2 q3 : Q) :
  let region := mkRegion "chr1" 100 110 Plus "" 0 in
  let matched :=
    mkRead "read1" false
      [(Some 1, Some 100); (Some 2, None); (Some 3, Some 101)]
      "TACG" [q0; q1; q2; q3] in
  let deleted :=
    mkRead "read2" false
      [(Some 1, Some 100); (Some 2, None); (None, Some 101)]
      "TAC" [q0; q1; q2] in
  snd (get_read_alignment qzero requality matched region 10)
  = (m ← requality [q1; q2];
     Ok (Some (mkFeatures "read1"
                 ([1; 0; 0; 0; 0; 5] :: replicate 9 [0; 0; 0; 0; 0; 0])
                 (m :: replicate 9 qzero)))) /\
  snd (get_read_alignment qzero requality deleted region 10)
  = (m ← requality [q1; q2];
     Ok (Some (mkFeatures "read2"
                 ([1; 0; 0; 0; 0; 5] :: replicate 9 [0; 0; 0; 0; 0; 0])
                 (m :: replicate 9 qzero)))).
Proof.
  cbv zeta. split.
  - vm_compute. destruct (requality [q1; q2]); reflexivity.
  - vm_compute. destruct (requality [q1; q2]); reflexivity.
Qed.

(** C2, the code on pairs with a position 0.  A pair (0, 100) at the start
    of the region [100, 110) has both positions present and is encoded as a
    deletion: channel 4 of row 0, no base and no quality.  A pair (1, 0) at
    the start of the region [0, 10) is taken for an insertion: nothing is
    written and the result is empty.  A pair (0, None) in range is not
    appended to the insertion run: the pair after it is encoded as if no
    base had been inserted. *)
Theorem zero_position_misclassified (q0 q1 : Q) :
  snd (get_read_alignment qzero requality
         (mkRead "read1" false [(Some 0, Some 100)] "A" [q0])
         (mkRegion "chr1" 100 110 Plus "" 0) 10)
  = Ok (Some (mkFeatures "read1"
                ([0; 0; 0; 0; 1; 0] :: replicate 9 [0; 0; 0; 0; 0; 0])
                (replicate 10 qzero))) /\
  snd (get_read_alignment qzero requality
         (mkRead "read2" false [(Some 1, Some 0)] "TA" [q0; q1])
         (mkRegion "chr1" 0 10 Plus "" 0) 10)
  = Ok None /\
  snd (get_read_alignment qzero requality
         (mkRead "read3" false
            [(None, Some 100); (Some 0, None); (Some 1, Some 101)]
            "CA" [q0; q1])
         (mkRegion "chr1" 100 110 Plus "" 0) 10)
  = Ok (Some (mkFeatures "read3"
                ([0; 0; 0; 0; 1; 0] :: [1; 0; 0; 0; 0; 0]
                 :: replicate 8 [0; 0; 0; 0; 0; 0])
                (qzero :: q1 :: replicate 8 qzero))).
Proof. repeat split; vm_compute; reflexivity. Qed.

End EncoderDefects.

(** * Properties of the region batch driver *)

Section Driver.

Context {Q : Type} (qzero : Q) (requality : list Q -> result Q).

(** C8: with the marker file present and no overwrite requested, the
    driver returns at once: the files and the log of operations are what
    they were, so the source was not opened and no read was taken.
    Otherwise it opens the source and takes the reads.  When the encoder
    returns on every read and the source raises nothing, the driver takes
    every read, closes the source, saves the alignments and the qualities
    of the reads with a result that is not empty, once each and in this
    order, touches the marker last and returns.  When the encoder raises
    on a read, or the source after its last read, the driver raises the
    same exception: the files are what they were, nothing was saved and
    the marker was not touched.  When the source cannot be opened, nothing
    happens but the exception. *)
Theorem driver_marker_protocol region region_string alignment_file ali_window
    output_dir overwrite (world : World Q) :
  let region_done := done_path output_dir region_string in
  let apath := alignment_path output_dir region_string in
  let qpath := quality_path output_dir region_string in
  let out :=
    get_region_alignment qzero requality
      (region, region_string, alignment_file, ali_window, output_dir, overwrite)
      world in
  if negb overwrite && is_file world region_done
  then out = (world, Ok ())
  else
    match files world !! alignment_file with
    | Some (AlignmentSource fetch) =>
        let '(reads, raised) :=
          fetch (chrom region) (start region) (end_ region) in
        let opened :=
          io_log world ++
          EvOpen alignment_file ::
          read_events (reads_taken qzero requality region ali_window reads) in
        match encode_all qzero requality region ali_window reads, raised with
        | Ok ds, None =>
            let kept := omap (fun d => d) ds in
            let saved :=
              <[qpath := NpyFloat (map quality kept)]>
                (<[apath := NpyInt (map alignment kept)]> (files world)) in
            reads_taken qzero requality region ali_window reads = reads /\
            snd out = Ok () /\
            io_log (fst out)
            = opened ++ [EvClose alignment_file; EvSave apath; EvSave qpath;
                         EvTouch region_done] /\
            files (fst out)
            = match saved !! region_done with
              | Some _ => saved
              | None => <[region_done := EmptyFile]> saved
              end
        | Ok _, Some e => out = (mkWorld (files world) opened, Err e)
        | Err e, _ => out = (mkWorld (files world) opened, Err e)
        end
    | _ => out = (world, Err OSError)
    end.
Proof.
  cbv zeta. unfold get_region_alignment.
  destruct (negb overwrite && is_file world (done_path output_dir region_string));
    [reflexivity|].
  destruct (files world !! alignment_file) as [[fetch | a | a |] |] eqn:Hsrc;
    try reflexivity.
  destruct (fetch (chrom region) (start region) (end_ region))
    as [reads raised].
  pose proof (read_loop_log qzero requality region ali_window reads [] [])
    as Hlog.
  pose proof (read_loop_result qzero requality region ali_window reads [] [])
    as Hres.
  pose proof (reads_taken_all qzero requality region ali_window reads) as Hall.
  destruct (read_loop qzero requality region ali_window reads [] [])
    as [l r]. cbn [fst snd] in Hlog, Hres. subst l r.
  destruct (encode_all qzero requality region ali_window reads) as [ds | e];
    cbn [mbind result_bind app]; [|reflexivity].
  destruct raised as [e |]; [reflexivity|].
  split; [exact (Hall ds eq_refl)|]. split; [reflexivity|]. split.
  - cbn. rewrite <- !app_assoc. reflexivity.
  - cbn. unfold is_file. cbn.
    destruct (_ !! done_path output_dir region_string) eqn:Hdone.
    + rewrite bool_decide_eq_true_2 by eauto. reflexivity.
    + rewrite bool_decide_eq_false_2; [reflexivity|].
      intros [x Hx]. discriminate Hx.
Qed.

End Driver.

(** * Instances on concrete reads

    The numbers of quality are floats and the merge is [insert_requality].
    (The quality that the forward fold reads back from the float32 vector
    is a NumPy scalar there, whose arithmetic follows the promotion rules
    of the NumPy version at hand; here it is the Python float of the same
    value.) *)

Lemma encoder_rows_in_window_witness :
  Forall (fun a => 0 <= access_row a < 10)
    (fst (get_read_alignment 0%float insert_requality
            (mkRead "read1" false
               [(Some 1, Some 100); (Some 2, None); (Some 3, Some 101)]
               "TACG" [30; 30; 30; 30]%float)
            (mkRegion "chr1" 100 110 Plus "" 0) 10)).
Proof.
  apply (encoder_rows_in_window 0%float insert_requality).
  - reflexivity.
  - lia.
  - unfold ref_increasing, ref_positions. cbn.
    repeat first [constructor | lia].
Defined.

(** * Further properties of [Region.resize] *)

Lemma grow_fields r w limit :
  chrom (grow r w limit) = chrom r /\
  strand (grow r w limit) = strand r /\
  info (grow r w limit) = info r /\
  ((offset r = 0 \/ offset r = 1) ->
   offset (grow r w limit) = 0 \/ offset (grow r w limit) = 1).
Proof.
  unfold grow. cbv zeta.
  destruct (_ <=? 0); [cbn; auto|].
  destruct (right_limit _ _ _); [cbn; auto|].
  destruct (_ =? 0); [cbn; auto|].
  destruct (negb _); cbn; auto.
Qed.

Lemma recenter_fields r :
  chrom (recenter r) = chrom r /\
  strand (recenter r) = strand r /\
  info (recenter r) = info r /\
  (offset (recenter r) = 0 \/ offset (recenter r) = 1).
Proof.
  unfold recenter. cbv zeta. cbn.
  destruct (_ =? 0); auto.
Qed.

Lemma resize_cases fuel r w limit r' :
  resize fuel r w limit = Some r' ->
  r' = r \/ r' = grow r w limit \/
  width (recenter r) <= w /\
  (r' = recenter r \/ r' = grow (recenter r) w limit).
Proof.
  destruct fuel as [| fuel]; [discriminate|]. cbn [resize].
  destruct (Z.ltb_spec (end_ r - start r) w).
  { intros [= <-]. auto. }
  destruct (Z.ltb_spec w (end_ r - start r)); [|intros [= <-]; auto].
  destruct fuel as [| fuel]; [discriminate|]. cbn [resize].
  pose proof (width_recenter r) as H1. unfold width in *.
  destruct (Z.ltb_spec (end_ (recenter r) - start (recenter r)) w).
  { intros [= <-]. right. right. split; [lia | auto]. }
  destruct (Z.ltb_spec w (end_ (recenter r) - start (recenter r))).
  - intros Hdiv. rewrite resize_diverges in Hdiv; [discriminate | lia |].
    rewrite width_recenter. lia.
  - intros [= <-]. right. right. split; [lia | auto].
Qed.

(** [resize] changes [start], [end] and [offset] only: the chromosome, the
    strand and the information string of the region stay as they are. *)
Theorem resize_keeps_identity fuel r w limit r' :
  resize fuel r w limit = Some r' ->
  chrom r' = chrom r /\ strand r' = strand r /\ info r' = info r.
Proof.
  intros H.
  pose proof (grow_fields r w limit) as (? & ? & ? & _).
  pose proof (recenter_fields r) as (Hc & Hs & Hi & _).
  pose proof (grow_fields (recenter r) w limit) as (? & ? & ? & _).
  destruct (resize_cases _ _ _ _ _ H) as [-> | [-> | [_ [-> | ->]]]];
    repeat split; congruence.
Qed.

Lemma resize_keeps_identity_witness :
  chrom (mkRegion "chr2" 96 105 Minus "site" 0) = "chr2" /\
  strand (mkRegion "chr2" 96 105 Minus "site" 0) = Minus /\
  info (mkRegion "chr2" 96 105 Minus "site" 0) = "site".
Proof.
  apply (resize_keeps_identity 2 (mkRegion "chr2" 100 101 Minus "site" 0)
           9 None).
  reflexivity.
Defined.

(** The parity flag stays a flag: when [offset] is 0 or 1 before [resize],
    it is 0 or 1 afterwards. *)
Theorem resize_offset_flag fuel r w limit r' :
  resize fuel r w limit = Some r' ->
  offset r = 0 \/ offset r = 1 ->
  offset r' = 0 \/ offset r' = 1.
Proof.
  intros H Hoff.
  pose proof (grow_fields r w limit) as (_ & _ & _ & Hg).
  pose proof (recenter_fields r) as (_ & _ & _ & Hr).
  pose proof (grow_fields (recenter r) w limit) as (_ & _ & _ & Hgr).
  destruct (resize_cases _ _ _ _ _ H) as [-> | [-> | [_ [-> | ->]]]]; auto.
Qed.

Lemma resize_offset_flag_witness :
  offset (mkRegion "chr2" 96 106 Minus "site" 1) = 0 \/
  offset (mkRegion "chr2" 96 106 Minus "site" 1) = 1.
Proof.
  apply (resize_offset_flag 2 (mkRegion "chr2" 100 101 Minus "site" 0)
           10 None).
  - reflexivity.
  - left. reflexivity.
Defined.

Lemma right_limit_some r flank limit l :
  right_limit r flank limit = Some l ->
  limit = Some l /\ l <> 0 /\ l <= end_ r + flank + 1 - offset r.
Proof.
  unfold right_limit. destruct limit as [l' |]; [|discriminate].
  destruct (Z.eqb_spec l' 0); cbn; [discriminate|].
  destruct (Z.leb_spec l' (end_ r + flank + 1 - offset r)); [|discriminate].
  intros [= <-]. auto.
Qed.

Lemma right_limit_none r flank l :
  right_limit r flank (Some l) = None ->
  l = 0 \/ end_ r + flank + 1 - offset r < l.
Proof.
  unfold right_limit.
  destruct (Z.eqb_spec l 0); cbn; [auto|].
  destruct (Z.leb_spec l (end_ r + flank + 1 - offset r)); [discriminate|].
  auto.
Qed.

(** The bounds of the grown region, branch by branch. *)
Lemma grow_bounds r w limit :
  offset r = 0 \/ offset r = 1 -> end_ r - start r < w ->
  let d := w - (end_ r - start r) in
  let r' := grow r w limit in
  (start r - d / 2 - offset r <= 0 /\ start r' = 0 /\ end_ r' = w) \/
  (0 < start r - d / 2 - offset r /\
   exists l, limit = Some l /\ l <> 0 /\
             l <= end_ r + d / 2 + 1 - offset r /\
             start r' = l - w /\ end_ r' = l) \/
  (0 < start r - d / 2 - offset r /\
   (forall l, limit = Some l -> l = 0 \/ end_ r + d / 2 + 1 - offset r < l) /\
   start r - d / 2 - 1 <= start r' <= start r - d / 2 /\
   end_ r' = start r' + w /\
   start r' + end_ r' - offset r' = start r + end_ r - offset r).
Proof.
  intros Hoff Hlt. cbv zeta. unfold grow. cbv zeta.
  set (d := w - (end_ r - start r)).
  assert (1 <= d) by (unfold d; lia).
  pose proof (Z.div_mod d 2 ltac:(lia)).
  pose proof (Z.mod_pos_bound d 2 ltac:(lia)).
  destruct (Z.leb_spec (start r - d / 2 - offset r) 0); [left; cbn; auto|].
  right.
  destruct (right_limit r (d / 2) limit) as [l |] eqn:Hlim.
  - left. apply right_limit_some in Hlim as (-> & Hl0 & Hl).
    split; [assumption|]. exists l. cbn. auto.
  - right. split; [assumption|]. split.
    { intros l ->. apply right_limit_none. exact Hlim. }
    destruct (Z.eqb_spec (d mod 2) 0).
    + cbn. unfold d in *. lia.
    + destruct (Z.eqb_spec (offset r) 0); cbn; unfold d in *; lia.
Qed.

(** Growing never loses the site: for a region inside the chromosome
    ([0 <= start], and [end <= limit] when a limit is given) whose parity
    flag is 0 or 1, the grown region contains the original one, in the
    clamped branches too. *)
Theorem grow_covers_region n r w limit :
  0 <= start r -> (forall l, limit = Some l -> end_ r <= l) ->
  offset r = 0 \/ offset r = 1 ->
  end_ r - start r < w ->
  exists r',
    resize (S n) r w limit = Some r' /\
    start r' <= start r /\ end_ r <= end_ r'.
Proof.
  intros Hstart Hend Hoff Hlt.
  rewrite resize_grow by exact Hlt. eexists. split; [reflexivity|].
  pose proof (grow_bounds r w limit Hoff Hlt) as Hb. cbv zeta in Hb.
  set (d := w - (end_ r - start r)) in *.
  assert (1 <= d) by (unfold d; lia).
  pose proof (Z.div_mod d 2 ltac:(lia)).
  pose proof (Z.mod_pos_bound d 2 ltac:(lia)).
  destruct Hb as [(Hc & -> & ->) | [(Hc & l & -> & Hl0 & Hl & -> & ->) | Hb]].
  - unfold d in *. lia.
  - specialize (Hend l eq_refl). unfold d in *. lia.
  - destruct Hb as (Hc & _ & Hs & He & _). unfold d in *. lia.
Qed.

Lemma grow_covers_region_witness :
  exists r',
    resize 1 (mkRegion "chr1" 3 4 Plus "" 0) 11 (Some 1000) = Some r' /\
    start r' <= 3 /\ 4 <= end_ r'.
Proof.
  apply (grow_covers_region 0 (mkRegion "chr1" 3 4 Plus "" 0) 11 (Some 1000));
    cbn; try lia.
  intros l [= <-]. lia.
Defined.

(** [resize] keeps a region inside its chromosome: for a region inside
    [0, limit] with parity flag 0 or 1 and a window [1 <= w <= limit], the
    resized region lies inside [0, limit] again. *)
Theorem resize_inside_chromosome r w l :
  0 <= start r -> start r <= end_ r -> end_ r <= l ->
  offset r = 0 \/ offset r = 1 ->
  1 <= w -> w <= l ->
  exists r',
    resize 2 r w (Some l) = Some r' /\ 0 <= start r' /\ end_ r' <= l.
Proof.
  intros Hs Hv He Hoff Hw Hwl.
  assert (forall r0, (offset r0 = 0 \/ offset r0 = 1) ->
            end_ r0 - start r0 < w ->
            0 <= start (grow r0 w (Some l)) /\ end_ (grow r0 w (Some l)) <= l)
    as Hgrow.
  { intros r0 Hoff0 Hlt0.
    pose proof (grow_bounds r0 w (Some l) Hoff0 Hlt0) as Hb. cbv zeta in Hb.
    set (d := w - (end_ r0 - start r0)) in *.
    destruct Hb as [(_ & -> & ->) | [(_ & l' & [= <-] & _ & _ & -> & ->) | Hb]];
      [lia | lia |].
    destruct Hb as (Hc & Hlim & Hs' & He' & Hmid).
    destruct (Hlim l eq_refl) as [-> | Hroom]; [lia|].
    destruct Hoff0 as [Ho | Ho]; rewrite Ho in *;
      pose proof (grow_fields r0 w (Some l)) as (_ & _ & _ & Hf);
      destruct (Hf ltac:(auto)) as [Ho' | Ho']; rewrite Ho' in *; lia. }
  destruct (Z.lt_trichotomy (width r) w) as [Hlt | [Heq | Hgt]].
  - rewrite resize_grow by exact Hlt. eexists. split; [reflexivity|].
    apply Hgrow; assumption.
  - rewrite resize_noop by exact Heq. eexists. split; [reflexivity | lia].
  - rewrite resize_shrink by exact Hgt.
    pose proof (width_recenter r) as H1.
    pose proof (recenter_fields r) as (_ & _ & _ & Hoff').
    destruct (Z.eq_dec w 1) as [-> | Hne].
    + rewrite resize_noop by exact H1. eexists. split; [reflexivity|].
      unfold width in *. unfold recenter in *. cbv zeta in *. cbn in *.
      pose proof (Z.div_mod (start r + end_ r - offset r) 2 ltac:(lia)).
      pose proof (Z.mod_pos_bound (start r + end_ r - offset r) 2 ltac:(lia)).
      lia.
    + rewrite resize_grow by lia. eexists. split; [reflexivity|].
      apply Hgrow; [exact Hoff' | unfold width in H1; lia].
Qed.

Lemma resize_inside_chromosome_witness :
  exists r',
    resize 2 (mkRegion "chr1" 995 996 Plus "" 0) 21 (Some 1000) = Some r' /\
    0 <= start r' /\ end_ r' <= 1000.
Proof.
  apply (resize_inside_chromosome (mkRegion "chr1" 995 996 Plus "" 0) 21 1000);
    cbn; lia.
Defined.

(** A window of 0 or less on a region that is not empty: [resize] calls
    itself without end, at no recursion depth does it return. *)
Theorem resize_nonpositive_window_never_returns fuel r w limit :
  w <= 0 -> 1 <= end_ r - start r -> resize fuel r w limit = None.
Proof. intros Hw Hr. apply resize_diverges; [exact Hw | exact Hr]. Qed.

Lemma resize_nonpositive_window_never_returns_witness :
  resize 1000 (mkRegion "chr1" 100 101 Plus "" 0) 0 (Some 5000) = None.
Proof.
  apply (resize_nonpositive_window_never_returns 1000
           (mkRegion "chr1" 100 101 Plus "" 0) 0 (Some 5000)); cbn; lia.
Defined.

(** Growing in two steps or in one gives the same region when neither
    chromosome end is near: the parity flag makes the odd steps alternate
    sides so that the steps add up. *)
Theorem grow_in_steps r w1 w2 limit :
  start r <= end_ r -> offset r = 0 \/ offset r = 1 ->
  end_ r - start r < w1 -> w1 < w2 ->
  w2 + 2 <= start r ->
  (forall l, limit = Some l -> end_ r + w2 + 2 <= l) ->
  exists r1,
    resize 1 r w1 limit = Some r1 /\
    resize 1 r1 w2 limit = resize 1 r w2 limit.
Proof.
  intros Hvalid Hoff H1 H2 Hroom Hlim.
  rewrite (resize_grow 0 r w1) by exact H1. eexists. split; [reflexivity|].
  pose proof (grow_bounds r w1 limit Hoff H1) as Hb1. cbv zeta in Hb1.
  pose proof (grow_bounds r w2 limit Hoff ltac:(lia)) as Hb2. cbv zeta in Hb2.
  pose proof (grow_fields r w1 limit) as (Hc1 & Hs1 & Hi1 & Hf1).
  specialize (Hf1 Hoff).
  set (r1 := grow r w1 limit) in *.
  set (d1 := w1 - (end_ r - start r)) in *.
  set (d2 := w2 - (end_ r - start r)) in *.
  pose proof (Z.div_mod d1 2 ltac:(lia)).
  pose proof (Z.mod_pos_bound d1 2 ltac:(lia)).
  pose proof (Z.div_mod d2 2 ltac:(lia)).
  pose proof (Z.mod_pos_bound d2 2 ltac:(lia)).
  assert (1 <= d1 /\ d1 < d2) as [Hd1 Hd12] by (unfold d1, d2; lia).
  destruct Hb1 as [(Hc & _) | [(_ & l & -> & _ & Hl & _) | Hb1]];
    [unfold d1 in *; lia | specialize (Hlim l eq_refl); unfold d1 in *; lia |].
  destruct Hb1 as (_ & _ & Hst1 & Hen1 & Hmid1).
  destruct Hb2 as [(Hc & _) | [(_ & l & -> & _ & Hl & _) | Hb2]];
    [unfold d2 in *; lia | specialize (Hlim l eq_refl); unfold d2 in *; lia |].
  destruct Hb2 as (_ & _ & Hst2 & Hen2 & Hmid2).
  assert (end_ r1 - start r1 < w2) as Hlt12 by lia.
  pose proof (grow_bounds r1 w2 limit Hf1 Hlt12) as Hb3. cbv zeta in Hb3.
  set (d3 := w2 - (end_ r1 - start r1)) in *.
  pose proof (Z.div_mod d3 2 ltac:(lia)).
  pose proof (Z.mod_pos_bound d3 2 ltac:(lia)).
  assert (d3 = w2 - w1) as Hd3 by (unfold d3; lia).
  destruct Hb3 as [(Hc & _) | [(_ & l & -> & _ & Hl & _) | Hb3]];
    [unfold d1, d2 in *; lia
    | specialize (Hlim l eq_refl); unfold d1, d2 in *; lia |].
  destruct Hb3 as (_ & _ & Hst3 & Hen3 & Hmid3).
  rewrite (resize_grow 0 r1 w2), (resize_grow 0 r w2) by (unfold width; lia).
  f_equal.
  pose proof (grow_fields r1 w2 limit) as (Hc3 & Hs3 & Hi3 & Hf3).
  pose proof (grow_fields r w2 limit) as (Hc2 & Hs2 & Hi2 & Hf2).
  specialize (Hf3 Hf1). specialize (Hf2 Hoff).
  destruct (grow r1 w2 limit) as [c3 s3 e3 sd3 i3 o3].
  destruct (grow r w2 limit) as [c2 s2 e2 sd2 i2 o2].
  cbn in *. subst c3 sd3 i3.
  assert (s3 = s2 /\ e3 = e2 /\ o3 = o2) as (-> & -> & ->) by lia.
  congruence.
Qed.

Lemma grow_in_steps_witness :
  exists r1,
    resize 1 (mkRegion "chr1" 500 501 Plus "" 0) 4 None = Some r1 /\
    resize 1 r1 11 None
    = resize 1 (mkRegion "chr1" 500 501 Plus "" 0) 11 None.
Proof.
  apply (grow_in_steps (mkRegion "chr1" 500 501 Plus "" 0) 4 11 None);
    cbn; try lia.
  intros l [=].
Defined.

(** * Further properties of the insertion merger *)

Lemma base_index_some c : is_base c = true -> exists d, _BASE_INDEX c = Some d.
Proof.
  intros H. destruct (is_base_cases c H) as [-> | [-> | [-> | ->]]];
    eexists; reflexivity.
Qed.

Lemma base_index_none c : is_base c = false -> _BASE_INDEX c = None.
Proof.
  unfold is_base, _BASE_INDEX.
  destruct (Ascii.eqb c "A"); [discriminate|].
  destruct (Ascii.eqb c "C"); [discriminate|].
  destruct (Ascii.eqb c "G"); [discriminate|].
  destruct (Ascii.eqb c "T"); [discriminate | reflexivity].
Qed.

Lemma base_digits_error l e : base_digits l = Err e -> e = KeyError.
Proof.
  induction l as [| c l IH]; cbn; [discriminate|].
  destruct (_BASE_INDEX c); cbn; [|congruence].
  destruct (base_digits l); cbn; [discriminate|].
  intros [= <-]. apply IH. reflexivity.
Qed.

Lemma base_digits_unknown l :
  Exists (fun c => is_base c = false) l -> exists e, base_digits l = Err e.
Proof.
  induction 1 as [c l Hc | c l _ [e IH]]; cbn.
  - rewrite (base_index_none c Hc). cbn. eauto.
  - destruct (_BASE_INDEX c); cbn; [|eauto]. rewrite IH. cbn. eauto.
Qed.

Lemma all_or_unknown l :
  Forall (fun c => is_base c = true) l \/
  Exists (fun c => is_base c = false) l.
Proof.
  induction l as [| c l [IH | IH]].
  - left. constructor.
  - destruct (is_base c) eqn:Hc.
    + left. constructor; assumption.
    + right. constructor. exact Hc.
  - right. apply Exists_cons_tl. exact IH.
Qed.

Lemma insert_seq_index_error l :
  Exists (fun c => is_base c = false) l -> insert_seq_index l = Err KeyError.
Proof.
  intros Hex. destruct (base_digits_unknown l Hex) as [e He].
  pose proof (base_digits_error l e He) as ->.
  unfold insert_seq_index. rewrite He. reflexivity.
Qed.

Lemma insert_seq_index_ok l v :
  insert_seq_index l = Ok v ->
  Forall (fun c => is_base c = true) l /\
  v = Z.min INT64_MAX (base4_value l).
Proof.
  intros H. destruct (all_or_unknown l) as [Hall | Hex].
  - split; [exact Hall|]. rewrite insert_seq_index_value in H by exact Hall.
    congruence.
  - rewrite (insert_seq_index_error l Hex) in H. discriminate.
Qed.

(** [insert_seq_index] raises [KeyError] exactly on the runs that hold a
    character other than A, C, G and T (an N, a lower-case base), and it
    raises nothing else. *)
Theorem insert_seq_index_unknown_base l :
  (insert_seq_index l = Err KeyError <->
   Exists (fun c => is_base c = false) l) /\
  (forall e, insert_seq_index l = Err e -> e = KeyError).
Proof.
  destruct (all_or_unknown l) as [Hall | Hex].
  - rewrite insert_seq_index_value by exact Hall. split.
    + split; [discriminate|]. intros Hex. exfalso.
      apply Exists_exists in Hex as (c & Hin & Hc).
      rewrite Forall_forall in Hall. rewrite (Hall c Hin) in Hc.
      discriminate.
    + discriminate.
  - rewrite (insert_seq_index_error l Hex). split.
    + split; auto.
    + intros e [= <-]. reflexivity.
Qed.

(** The code of a run is never 0 and fits a signed 64-bit integer. *)
Lemma insert_seq_index_range l v :
  insert_seq_index l = Ok v -> 1 <= v <= INT64_MAX.
Proof.
  intros H. apply insert_seq_index_ok in H as [Hall ->].
  pose proof (base4_from_bounds l 1 Hall) as [Hlb _].
  assert (0 < 4 ^ Z.of_nat (length l)) by (apply Z.pow_pos_nonneg; lia).
  unfold base4_value, INT64_MAX. lia.
Qed.

(** Below the threshold the code tells the length of the run. *)
Lemma base4_value_length l1 l2 :
  Forall (fun c => is_base c = true) l1 ->
  Forall (fun c => is_base c = true) l2 ->
  base4_value l1 = base4_value l2 -> length l1 = length l2.
Proof.
  intros H1 H2 Heq.
  pose proof (base4_from_bounds l1 1 H1) as [Hlb1 Hub1].
  pose proof (base4_from_bounds l2 1 H2) as [Hlb2 Hub2].
  fold (base4_value l1) in *. fold (base4_value l2) in *.
  assert (forall n m : nat, (n < m)%nat ->
            (1 + 1) * 4 ^ Z.of_nat n <= 1 * 4 ^ Z.of_nat m) as Hgap.
  { intros n m Hnm.
    assert (4 ^ Z.of_nat (S n) <= 4 ^ Z.of_nat m)
      by (apply Z.pow_le_mono_r; lia).
    rewrite Nat2Z.inj_succ, Z.pow_succ_r in * by lia.
    assert (0 < 4 ^ Z.of_nat n) by (apply Z.pow_pos_nonneg; lia).
    lia. }
  destruct (Nat.lt_trichotomy (length l1) (length l2)) as [Hlt | [Heq' | Hgt]];
    [|exact Heq'|].
  - specialize (Hgap _ _ Hlt). lia.
  - specialize (Hgap _ _ Hgt). lia.
Qed.

(** Below the threshold of 32 bases the code determines the run, its
    length included: two runs with the same code are the same run. *)
Theorem insert_seq_index_determines_run l1 l2 v :
  (length l1 < overflow_threshold)%nat ->
  (length l2 < overflow_threshold)%nat ->
  insert_seq_index l1 = Ok v -> insert_seq_index l2 = Ok v -> l1 = l2.
Proof.
  intros Hlen1 Hlen2 H1 H2.
  apply insert_seq_index_ok in H1 as [Hall1 Hv1].
  apply insert_seq_index_ok in H2 as [Hall2 Hv2].
  pose proof (base4_value_fits l1 Hall1 Hlen1).
  pose proof (base4_value_fits l2 Hall2 Hlen2).
  rewrite Z.min_r in Hv1, Hv2 by assumption.
  assert (base4_value l1 = base4_value l2) as Heq by congruence.
  pose proof (base4_value_length l1 l2 Hall1 Hall2 Heq) as Hlen.
  eapply base4_from_inj; eassumption.
Qed.

Lemma insert_seq_index_determines_run_witness :
  ["G"; "A"]%char = ["G"; "A"]%char.
Proof.
  apply (insert_seq_index_determines_run ["G"; "A"]%char ["G"; "A"]%char 24);
    [unfold overflow_threshold; cbn; lia
    | unfold overflow_threshold; cbn; lia
    | reflexivity | reflexivity].
Defined.

(** The ceiling is reached below the threshold too, by one run: 31 times
    T.  That run has the code of every run of 32 bases or more. *)
Theorem insert_seq_index_ceiling_below_threshold l :
  (length l < overflow_threshold)%nat ->
  (insert_seq_index l = Ok 9223372036854775807 <->
   l = replicate 31 "T"%char).
Proof.
  intros Hlen.
  assert (insert_seq_index (replicate 31 "T"%char) = Ok 9223372036854775807)
    as HT by (vm_compute; reflexivity).
  split.
  - intros H. eapply insert_seq_index_determines_run;
      [exact Hlen | | exact H | exact HT].
    unfold overflow_threshold. cbn. lia.
  - intros ->. exact HT.
Qed.

Lemma insert_seq_index_ceiling_below_threshold_witness :
  insert_seq_index (replicate 31 "T"%char) = Ok 9223372036854775807 <->
  replicate 31 "T"%char = replicate 31 "T"%char.
Proof.
  apply (insert_seq_index_ceiling_below_threshold (replicate 31 "T"%char)).
  unfold overflow_threshold. cbn. lia.
Defined.

(** ** Merged qualities: the qualities that cannot be merged *)

Lemma factor_is_one_all : forallb factor_is_one (Z_range 163 93) = true.
Proof. vm_compute. reflexivity. Qed.

Lemma requality_loop_saturated l :
  Forall (fun q => 163 <= q <= 255) l ->
  requality_loop 1%float (map float_of_Z l) = Ok 1%float.
Proof.
  induction 1 as [| q l Hq _ IH]; [reflexivity|].
  cbn [map requality_loop].
  pose proof factor_is_one_all as Hall. rewrite forallb_forall in Hall.
  specialize (Hall q (Z_range_elem 163 93 q ltac:(lia))).
  unfold factor_is_one in Hall.
  destruct (py_pow10 (- float_of_Z q / 10)) as [p |]; [|discriminate].
  apply Leibniz.eqb_spec in Hall. cbn [mbind result_bind].
  rewrite Hall. exact IH.
Qed.

(** From 163 on a quality cannot be merged: on every list of integer
    qualities between 163 and 255, the empty list among them, each factor
    [1 - 10 ** (-q / 10)] rounds to 1, the product is 1, and
    [insert_requality] raises [ValueError] for the logarithm of 0. *)
Theorem insert_requality_saturated l :
  Forall (fun q => 163 <= q <= 255) l ->
  insert_requality (map float_of_Z l) = Err ValueError.
Proof.
  intros Hl. unfold insert_requality.
  rewrite (requality_loop_saturated l Hl). reflexivity.
Qed.

Lemma insert_requality_saturated_witness :
  insert_requality (map float_of_Z [200; 170]) = Err ValueError.
Proof.
  apply (insert_requality_saturated [200; 170]).
  repeat constructor; lia.
Defined.

(** * Further properties of the encoder *)

Section EncoderArrays.

Context {Q : Type} (qzero : Q) (requality : list Q -> result Q).

Lemma np_index_lt n i k : np_index n i = Ok k -> (k < n)%nat.
Proof.
  unfold np_index.
  destruct (Z.leb_spec 0 i), (Z.ltb_spec i (Z.of_nat n)); cbn;
    try (intros [= <-]; lia).
  all: destruct (Z.leb_spec (- Z.of_nat n) i), (Z.ltb_spec i 0); cbn;
    try discriminate; intros [= <-]; lia.
Qed.

Lemma row_ok_insert row c v :
  row_ok row -> 0 <= v <= INT64_MAX -> (v = 1 \/ c = 5%nat) ->
  row_ok (<[c := v]> row).
Proof.
  intros (Hlen & Hrange & Hbits) Hv Hcase. split; [|split].
  - rewrite length_insert. exact Hlen.
  - apply Forall_insert; assumption.
  - rewrite take_insert. case_decide; [|exact Hbits].
    destruct Hcase as [-> | ->]; [|lia].
    apply Forall_insert; auto.
Qed.

Lemma row_ok_zero : row_ok (replicate 6 0).
Proof.
  split; [reflexivity|]. unfold INT64_MAX.
  split; cbn; repeat constructor; lia.
Qed.

(** A write that succeeds keeps the shape and the entries of the tensor. *)
Lemma wp_set_hot_ok a i j v n :
  length a = n -> Forall row_ok a ->
  0 <= v <= INT64_MAX -> (v = 1 \/ j = 5) ->
  wp (fun _ => True) (set_hot a i j v)
     (fun a' => length a' = n /\ Forall row_ok a').
Proof.
  intros Hlen Hrows Hv Hcase. unfold set_hot, tell, lift, wbind. split.
  - cbn. repeat constructor.
  - cbn. intros a'. destruct (np_index (length a) i) as [r |]; [|discriminate].
    cbn. destruct (np_index 6 j) as [c |] eqn:Hc; [|discriminate].
    cbn. intros [= <-]. split; [rewrite length_alter; exact Hlen|].
    apply Forall_alter; [exact Hrows|]. intros row _ Hrow.
    apply row_ok_insert; [exact Hrow | exact Hv|].
    destruct Hcase as [-> | ->]; [left; reflexivity | right].
    vm_compute in Hc. congruence.
Qed.

Lemma wp_set_qual_ok (a : list Q) i v n :
  length a = n ->
  wp (fun _ => True) (set_qual a i v) (fun a' => length a' = n).
Proof.
  intros Hlen. unfold set_qual, tell, lift, wbind. split.
  - cbn. repeat constructor.
  - cbn. intros a'. destruct (np_index (length a) i); [|discriminate].
    cbn. intros [= <-]. rewrite length_insert. exact Hlen.
Qed.

Lemma wp_get_qual_any (a : list Q) i :
  wp (fun _ => True) (get_qual a i) (fun _ => True).
Proof.
  unfold get_qual, tell, lift, wbind. split; [|auto].
  cbn. destruct (py_index a i); repeat constructor.
Qed.

Lemma wp_insert_seq_index l (post : Z -> Prop) :
  (forall code, 1 <= code <= INT64_MAX -> post code) ->
  wp (fun _ : access => True) (lift (insert_seq_index l)) post.
Proof.
  intros H. apply wp_lift. intros code Hcode. apply H.
  eapply insert_seq_index_range. exact Hcode.
Qed.

Ltac arrays_step :=
  lazymatch goal with
  | |- wp _ (wret _) _ => apply wp_ret
  | |- wp _ (wbind _ _) _ => apply wp_bind
  | |- wp _ (lift (insert_seq_index _)) _ =>
      apply wp_insert_seq_index; intros ? ?
  | |- wp _ (lift _) _ => apply wp_lift; intros ? _
  | |- wp _ (set_hot _ _ _ _) _ =>
      eapply wp_conseq;
      [eapply wp_set_hot_ok; [eassumption | eassumption | unfold INT64_MAX in *; lia | auto]
      | cbn beta; intros ? [? ?]]
  | |- wp _ (get_qual _ _) _ =>
      eapply wp_conseq; [apply wp_get_qual_any | cbn beta; intros ? _]
  | |- wp _ (set_qual _ _ _) _ =>
      eapply wp_conseq;
      [eapply wp_set_qual_ok; eassumption | cbn beta; intros ? ?]
  end.

Lemma wp_encode_pair_arrays n read region (st : scan_state Q)
    read_index ref_index :
  arrays_ok n st ->
  wp (fun _ => True)
     (encode_pair requality read region st read_index ref_index)
     (arrays_ok n).
Proof.
  intros (Hlen & Hrows & Hq). unfold encode_pair.
  destruct (in_range st); [|apply wp_ret; repeat split; assumption].
  destruct (truthy read_index), (truthy ref_index).
  - unfold encode_match, fold_forward.
    destruct (nonempty (insert_seq_list st)); [destruct (strand region)|];
      repeat arrays_step; repeat split; assumption.
  - unfold encode_insertion. repeat arrays_step.
    destruct (_ && _); apply wp_ret; repeat split; assumption.
  - unfold encode_deletion, fold_forward.
    destruct (nonempty (insert_seq_list st)); [destruct (strand region)|];
      repeat arrays_step; repeat split; assumption.
  - apply wp_ret. repeat split; assumption.
Qed.

Lemma wp_scan_arrays n read region pairs : forall (st : scan_state Q),
  arrays_ok n st ->
  wp (fun _ => True) (scan requality read region pairs st) (arrays_ok n).
Proof.
  induction pairs as [| [read_index ref_index] pairs IH]; intros st Hst;
    cbn [scan].
  - apply wp_ret. exact Hst.
  - apply wp_bind. unfold scan_step.
    destruct (ref_equals ref_index (start region)).
    + apply wp_bind. eapply wp_conseq.
      { apply wp_encode_pair_arrays. exact Hst. }
      cbn beta. intros st' Hst'. apply wp_ret. apply IH. exact Hst'.
    + destruct (_ && _).
      * apply wp_ret. apply wp_ret. exact Hst.
      * apply wp_bind. eapply wp_conseq.
        { apply wp_encode_pair_arrays. exact Hst. }
        cbn beta. intros st' Hst'. apply wp_ret. apply IH. exact Hst'.
Qed.

Lemma arrays_ok_init ali_window :
  arrays_ok (Z.to_nat ali_window) (init_state qzero ali_window).
Proof.
  unfold arrays_ok, init_state. cbn. rewrite !length_replicate.
  split; [reflexivity|]. split; [|reflexivity].
  apply Forall_replicate. apply row_ok_zero.
Qed.

(** The result of the encoder, when it is not empty, has the fixed shape:
    [ali_window] rows of six channels in the tensor and [ali_window]
    entries in the quality vector.  Every entry of the tensor is a
    non-negative signed 64-bit integer, and the entries of the channels 0
    to 4 are 0 or 1. *)
Theorem encoder_output_shape (read : Read Q) region ali_window d :
  snd (get_read_alignment qzero requality read region ali_window)
  = Ok (Some d) ->
  length (alignment d) = Z.to_nat ali_window /\
  length (quality d) = Z.to_nat ali_window /\
  Forall (fun row =>
            length row = 6%nat /\
            Forall (fun v => 0 <= v <= 9223372036854775807) row /\
            Forall (fun v => v = 0 \/ v = 1) (take 5 row))
         (alignment d).
Proof.
  unfold get_read_alignment.
  destruct (negb _); [discriminate|].
  destruct (ali_window <? 0); [discriminate|].
  pose proof (wp_scan_arrays (Z.to_nat ali_window) read region
                (aligned_pairs read) _ (arrays_ok_init ali_window))
    as [_ Hpost].
  destruct (scan requality read region (aligned_pairs read)
              (init_state qzero ali_window)) as [l [st | e]];
    cbn in Hpost |- *; [|discriminate].
  destruct (Hpost st eq_refl) as (Hlen & Hrows & Hq).
  destruct (any_nonzero (range_one_hot st)); cbn; [|discriminate].
  intros [= <-]. cbn. auto.
Qed.

End EncoderArrays.

Lemma encoder_output_shape_witness :
  let d :=
    mkFeatures "read1"
      ([1; 0; 0; 0; 0; 0] :: replicate 9 [0; 0; 0; 0; 0; 0])
      (30%float :: replicate 9 0%float) in
  length (alignment d) = Z.to_nat 10 /\
  length (quality d) = Z.to_nat 10 /\
  Forall (fun row =>
            length row = 6%nat /\
            Forall (fun v => 0 <= v <= 9223372036854775807) row /\
            Forall (fun v => v = 0 \/ v = 1) (take 5 row))
         (alignment d).
Proof.
  apply (encoder_output_shape 0%float insert_requality
           (mkRead "read1" false [(Some 1, Some 100)] "TA" [20; 30]%float)
           (mkRegion "chr1" 100 110 Plus "" 0) 10).
  reflexivity.
Defined.

Section EncoderOutside.

Context {Q : Type} (qzero : Q) (requality : list Q -> result Q).

Lemma scan_outside read region pairs : forall (st : scan_state Q),
  in_range st = false ->
  Forall (fun p => snd p <> Some (start region)) pairs ->
  scan requality read region pairs st = ([], Ok st).
Proof.
  induction pairs as [| [read_index ref_index] pairs IH]; intros st Hout Hne;
    [reflexivity|].
  inversion Hne as [| ? ? Hhead Htail]; subst. cbn in Hhead.
  cbn [scan]. unfold scan_step.
  assert (ref_equals ref_index (start region) = false) as ->.
  { destruct ref_index as [v |]; [|reflexivity]. cbn.
    apply Z.eqb_neq. congruence. }
  destruct (_ && _); [reflexivity|].
  unfold encode_pair. rewrite Hout. cbn.
  rewrite (IH st Hout Htail). reflexivity.
Qed.

Lemma any_nonzero_init ali_window :
  any_nonzero (range_one_hot (init_state qzero ali_window)) = false.
Proof.
  apply any_nonzero_false. unfold all_zero, init_state. cbn.
  apply Forall_replicate. repeat constructor.
Qed.

(** A read none of whose aligned pairs sits on the first position of the
    region (it begins inside the region, or does not reach it) contributes
    nothing: the encoder touches no array and returns the empty result. *)
Theorem read_missing_region_start (read : Read Q) region ali_window :
  0 <= ali_window ->
  Forall (fun p => snd p <> Some (start region)) (aligned_pairs read) ->
  get_read_alignment qzero requality read region ali_window = ([], Ok None).
Proof.
  intros Hwin Hne. unfold get_read_alignment.
  destruct (negb _); [reflexivity|].
  destruct (Z.ltb_spec ali_window 0); [lia|].
  rewrite scan_outside by (reflexivity || exact Hne).
  cbv beta iota delta [wbind]. rewrite any_nonzero_init. reflexivity.
Qed.

End EncoderOutside.

Lemma read_missing_region_start_witness :
  get_read_alignment 0%float insert_requality
    (mkRead "read1" false
       [(Some 1, Some 101); (Some 2, Some 102); (Some 3, Some 103)]
       "TACG" [30; 30; 30; 30]%float)
    (mkRegion "chr1" 100 110 Plus "" 0) 10
  = ([], Ok None).
Proof.
  apply (read_missing_region_start 0%float insert_requality); [lia|].
  repeat constructor; discriminate.
Defined.

Section ReturnsRules.

Context {A B : Type}.





End ReturnsRules.

Section EncoderTotal.

Context {Q : Type} (qzero : Q) (requality : list Q -> result Q).
Context (good : Q -> Prop).
Hypothesis requality_good :
  forall l, l <> [] -> Forall good l -> exists v, requality l = Ok v /\ good v.

Lemma np_index_in_range n i :
  0 <= i < Z.of_nat n -> np_index n i = Ok (Z.to_nat i).
Proof.
  intros H. unfold np_index.
  destruct (Z.leb_spec 0 i); [|lia].
  destruct (Z.ltb_spec i (Z.of_nat n)); [reflexivity | lia].
Qed.













End EncoderTotal.





Section EncoderKeyError.

Context {Q : Type} (qzero : Q) (requality : list Q -> result Q).

Lemma wbind_nil_ok {A B : Type} (a : A) (f : A -> W B) :
  wbind ([], Ok a) f = f a.
Proof. unfold wbind. destruct (f a). reflexivity. Qed.

(** The pairs before the region leave the state of the loop as it is. *)
Lemma scan_before_region read region prefix rest : forall (st : scan_state Q),
  in_range st = false -> start region <= end_ region ->
  Forall (fun p => forall v, snd p = Some v -> v < start region) prefix ->
  scan requality read region (prefix ++ rest) st
  = scan requality read region rest st.
Proof.
  induction prefix as [| [read_index ref_index] prefix IH];
    intros st Hout Hvalid Hbefore; [reflexivity|].
  inversion Hbefore as [| ? ? Hhead Htail]; subst. cbn in Hhead.
  cbn [app scan]. unfold scan_step.
  assert (ref_equals ref_index (start region) = false) as ->.
  { destruct ref_index as [v |]; [|reflexivity]. cbn.
    specialize (Hhead v eq_refl). apply Z.eqb_neq. lia. }
  assert (truthy ref_index && (end_ region <=? default 0 ref_index) = false)
    as ->.
  { destruct ref_index as [v |]; [|reflexivity]. cbn.
    specialize (Hhead v eq_refl).
    destruct (Z.leb_spec (end_ region) v); [lia|].
    apply andb_false_r. }
  unfold encode_pair. rewrite Hout.
  unfold wret. rewrite !wbind_nil_ok. apply IH; assumption.
Qed.

(** A base that is not a key of [_BASE_INTS] (an N, say) matched on the
    first position of the region makes the encoder raise [KeyError]: for a
    read of the strand of the region that begins before the region and
    whose pair on the region start has such a base. *)
Theorem encoder_unknown_base (read : Read Q) region ali_window
    prefix rest read_index b :
  read_strand read = strand region -> 0 <= ali_window ->
  start region <= end_ region -> start region <> 0 -> read_index <> 0 ->
  aligned_pairs read
  = prefix ++ (Some read_index, Some (start region)) :: rest ->
  Forall (fun p => forall v, snd p = Some v -> v < start region) prefix ->
  read_base read read_index = Ok b -> _BASE_INTS b = None ->
  snd (get_read_alignment qzero requality read region ali_window)
  = Err KeyError.
Proof.
  intros Hstrand Hwin Hvalid Hs0 Hr0 Hpairs Hbefore Hbase Hkey.
  rewrite get_read_alignment_same_strand by assumption.
  rewrite Hpairs, scan_before_region by (reflexivity || assumption).
  cbn [scan]. unfold scan_step. cbn [ref_equals]. rewrite Z.eqb_refl.
  unfold encode_pair. cbn [set_in_range in_range truthy].
  destruct (Z.eqb_spec read_index 0); [contradiction|].
  destruct (Z.eqb_spec (start region) 0); [contradiction|].
  cbn [negb from_option]. unfold encode_match.
  change (Datatypes.id read_index) with read_index.
  cbn [insert_seq_list set_in_range init_state nonempty].
  rewrite Hbase. unfold lift at 1. rewrite wbind_nil_ok, Hkey.
  reflexivity.
Qed.

End EncoderKeyError.

Lemma encoder_unknown_base_witness :
  snd (get_read_alignment 0%float insert_requality
         (mkRead "read1" false
            [(Some 0, Some 99); (Some 1, Some 100); (Some 2, Some 101)]
            "ANC" [30; 30; 30]%float)
         (mkRegion "chr1" 100 110 Plus "" 0) 10)
  = Err KeyError.
Proof.
  apply (encoder_unknown_base 0%float insert_requality
           (mkRead "read1" false
              [(Some 0, Some 99); (Some 1, Some 100); (Some 2, Some 101)]
              "ANC" [30; 30; 30]%float)
           (mkRegion "chr1" 100 110 Plus "" 0) 10
           [(Some 0, Some 99)] [(Some 2, Some 101)] 1 "N"%char);
    try reflexivity; cbn; try lia.
  repeat constructor. cbn. intros v [= <-]. lia.
Defined.

(** * Further properties of the region batch driver *)

Section DriverRuns.

Context {Q : Type} (qzero : Q) (requality : list Q -> result Q).

Lemma is_file_touch (w : World Q) path : is_file (touch w path) path = true.
Proof.
  unfold touch. destruct (is_file w path) eqn:Hf.
  - unfold is_file in *. cbn. exact Hf.
  - unfold is_file. cbn. apply bool_decide_eq_true_2.
    rewrite lookup_insert_eq. eauto.
Qed.

(** The shape of a run: a skip, a failure that leaves the files alone, or
    the two saves followed by the touch of the marker. *)
Lemma get_region_alignment_cases region region_string alignment_file
    ali_window output_dir overwrite (world world' : World Q) res :
  get_region_alignment qzero requality
    (region, region_string, alignment_file, ali_window, output_dir, overwrite)
    world = (world', res) ->
  (world' = world /\ res = Ok () /\
   is_file world (done_path output_dir region_string) = true) \/
  (files world' = files world /\ exists e, res = Err e) \/
  (res = Ok () /\
   exists w2 reads_alignment reads_quality,
     files w2 = files world /\
     world' = touch
                (np_save
                   (np_save w2 (alignment_path output_dir region_string)
                      (NpyInt reads_alignment))
                   (quality_path output_dir region_string)
                   (NpyFloat reads_quality))
                (done_path output_dir region_string)).
Proof.
  unfold get_region_alignment.
  destruct (negb overwrite && is_file world _) eqn:Hskip.
  { intros [= <- <-]. left. apply andb_true_iff in Hskip as [_ Hf]. auto. }
  destruct (files world !! alignment_file) as [[fetch | a | a |] |];
    try (intros [= <- <-]; right; left; eauto).
  destruct (fetch _ _ _) as [reads raised].
  destruct (read_loop _ _ _ _ _ _ _) as [l [[ra rq] | e]].
  - destruct raised as [e |].
    + intros [= <- <-]. right. left. eauto.
    + intros [= <- <-]. right. right. split; [reflexivity|].
      eexists _, ra, rq. split; [|reflexivity]. reflexivity.
  - intros [= <- <-]. right. left. eauto.
Qed.

(** A second run is a skip: after a run that returned, the driver called
    again for the same output directory and region key, without overwrite,
    returns at once and changes nothing (whatever the region, the source
    and the window of the second call). *)
Theorem driver_rerun_skips region region_string alignment_file ali_window
    output_dir overwrite (world world' : World Q)
    region2 alignment_file2 ali_window2 :
  get_region_alignment qzero requality
    (region, region_string, alignment_file, ali_window, output_dir, overwrite)
    world = (world', Ok ()) ->
  get_region_alignment qzero requality
    (region2, region_string, alignment_file2, ali_window2, output_dir, false)
    world' = (world', Ok ()).
Proof.
  intros Hrun.
  assert (is_file world' (done_path output_dir region_string) = true) as Hdone.
  { destruct (get_region_alignment_cases _ _ _ _ _ _ _ _ _ Hrun)
      as [(-> & _ & Hf) | [(_ & e & [=]) | (_ & w2 & ra & rq & _ & ->)]].
    - exact Hf.
    - apply is_file_touch. }
  unfold get_region_alignment. rewrite Hdone. reflexivity.
Qed.

(** The driver writes three paths only: every other file, the alignment
    source among them, is after the run what it was before, whether the run
    returns or raises. *)
Theorem driver_other_files_untouched region region_string alignment_file
    ali_window output_dir overwrite (world world' : World Q) res path :
  get_region_alignment qzero requality
    (region, region_string, alignment_file, ali_window, output_dir, overwrite)
    world = (world', res) ->
  path <> alignment_path output_dir region_string ->
  path <> quality_path output_dir region_string ->
  path <> done_path output_dir region_string ->
  files world' !! path = files world !! path.
Proof.
  intros Hrun Ha Hq Hd.
  destruct (get_region_alignment_cases _ _ _ _ _ _ _ _ _ Hrun)
    as [(-> & _) | [(-> & _) | (_ & w2 & ra & rq & Hw2 & ->)]];
    [reflexivity | reflexivity |].
  unfold touch. cbn [files].
  destruct (is_file _ _).
  - cbn. rewrite !lookup_insert_ne by congruence. rewrite Hw2. reflexivity.
  - rewrite lookup_insert_ne by congruence. cbn.
    rewrite !lookup_insert_ne by congruence. rewrite Hw2. reflexivity.
Qed.

End DriverRuns.

Lemma driver_rerun_skips_witness :
  let world : World float :=
    mkWorld {["reads.bam" := AlignmentSource (fun _ _ _ => ([], None))]} [] in
  let region := mkRegion "chr1" 100 110 Plus "" 0 in
  let world' :=
    fst (get_region_alignment 0%float insert_requality
           (region, "chr1_+_104-105", "reads.bam", 10, "out", true) world) in
  get_region_alignment 0%float insert_requality
    (region, "chr1_+_104-105", "other.bam", 10, "out", false) world'
  = (world', Ok ()).
Proof.
  cbv zeta.
  apply (driver_rerun_skips 0%float insert_requality
           (mkRegion "chr1" 100 110 Plus "" 0) "chr1_+_104-105" "reads.bam"
           10 "out" true
           (mkWorld {["reads.bam" := AlignmentSource (fun _ _ _ => ([], None))]} [])).
  reflexivity.
Defined.

Lemma driver_other_files_untouched_witness :
  let world : World float :=
    mkWorld {["reads.bam" := AlignmentSource (fun _ _ _ => ([], None))]} [] in
  let region := mkRegion "chr1" 100 110 Plus "" 0 in
  files
    (fst (get_region_alignment 0%float insert_requality
            (region, "chr1_+_104-105", "reads.bam", 10, "out", true) world))
    !! "reads.bam"
  = files world !! "reads.bam".
Proof.
  cbv zeta.
  apply (driver_other_files_untouched 0%float insert_requality
           (mkRegion "chr1" 100 110 Plus "" 0) "chr1_+_104-105" "reads.bam"
           10 "out" true
           (mkWorld {["reads.bam" := AlignmentSource (fun _ _ _ => ([], None))]} [])
           _ (Ok ()));
    [reflexivity | discriminate | discriminate | discriminate].
Defined.

(** * Properties of the reference reader *)

Ltac by_iupac_cases c :=
  repeat
    match goal with
    | |- context [Ascii.eqb ?k c] =>
        destruct (Ascii.eqb_spec k c); [subst c|]
    end.

Lemma comp_base_involutive c d :
  dict_get _COMP_BASE c = Some d -> dict_get _COMP_BASE d = Some c.
Proof.
  unfold _COMP_BASE. cbn [dict_get]. by_iupac_cases c;
    first [intros [= <-]; reflexivity | discriminate].
Qed.

Lemma onehot_rev_is_comp c :
  dict_get _BASE_ONEHOT_REV c
  = match dict_get _COMP_BASE c with
    | Some d => dict_get _BASE_ONEHOT d
    | None => None
    end.
Proof.
  unfold _BASE_ONEHOT_REV, _COMP_BASE. cbn [dict_get]. by_iupac_cases c;
    reflexivity.
Qed.

Lemma lookup_all_forall2 {V : Type} (table : list (ascii * V)) l vs :
  lookup_all table l = Ok vs <->
  Forall2 (fun c v => dict_get table c = Some v) l vs.
Proof.
  revert vs. induction l as [| c l IH]; intros vs; cbn.
  - split; [intros [= <-]; constructor | intros H; inversion H; reflexivity].
  - split.
    + destruct (dict_get table c) as [v |] eqn:Hc; cbn; [|discriminate].
      destruct (lookup_all table l) as [vs' |]; cbn; [|discriminate].
      intros [= <-]. constructor; [exact Hc | apply IH; reflexivity].
    + intros H. inversion H as [| ? v ? vs' Hc Hrest]; subst.
      rewrite Hc. cbn. apply IH in Hrest. rewrite Hrest. reflexivity.
Qed.

Lemma Forall2_rev {X Y : Type} (P : X -> Y -> Prop) l k :
  Forall2 P l k -> Forall2 P (rev l) (rev k).
Proof.
  induction 1 as [| x y l k Hxy Hlk IH]; cbn; [constructor|].
  apply Forall2_app; [exact IH | repeat constructor; exact Hxy].
Qed.

(** The reverse complement of the reverse complement is the sequence
    itself: what the reader returns for the minus strand, reverse
    complemented again, is the sequence of the plus strand. *)
Theorem reverse_complement_involutive s s' :
  reverse_complement s = Ok s' -> reverse_complement s' = Ok s.
Proof.
  unfold reverse_complement.
  destruct (lookup_all _COMP_BASE (rev (list_ascii_of_string s)))
    as [l |] eqn:Hl; cbn; [|discriminate].
  intros [= <-]. rewrite list_ascii_of_string_of_list_ascii.
  apply lookup_all_forall2 in Hl.
  assert (lookup_all _COMP_BASE (rev l) = Ok (list_ascii_of_string s)) as ->.
  { apply lookup_all_forall2.
    rewrite <- (rev_involutive (list_ascii_of_string s)).
    apply Forall2_rev.
    apply Forall2_flip. eapply Forall2_impl; [exact Hl|].
    cbn. intros c d Hcd. apply comp_base_involutive. exact Hcd. }
  cbn. rewrite string_of_list_ascii_of_string. reflexivity.
Qed.

Lemma reverse_complement_involutive_witness :
  reverse_complement "ACCGTN" = Ok "NACGGT"%string.
Proof.
  apply (reverse_complement_involutive "NACGGT" "ACCGTN"). reflexivity.
Defined.

Lemma onehot_of_complement c d :
  dict_get _COMP_BASE c = Some d -> exists v, dict_get _BASE_ONEHOT d = Some v.
Proof.
  intros Hd. apply comp_base_involutive in Hd. revert Hd.
  unfold _COMP_BASE, _BASE_ONEHOT. cbn [dict_get]. by_iupac_cases d;
    first [intros _; eexists; reflexivity | discriminate].
Qed.

#[local] Opaque _COMP_BASE _BASE_ONEHOT _BASE_ONEHOT_REV.

Lemma lookup_all_rev_comp l : forall l',
  lookup_all _COMP_BASE l = Ok l' ->
  lookup_all _BASE_ONEHOT_REV l = lookup_all _BASE_ONEHOT l'.
Proof.
  induction l as [| c l IH]; intros l'; cbn.
  - intros [= <-]. reflexivity.
  - rewrite onehot_rev_is_comp.
    destruct (dict_get _COMP_BASE c) as [d |]; cbn; [|discriminate].
    destruct (lookup_all _COMP_BASE l) as [ds |]; cbn; [|discriminate].
    intros [= <-]. cbn. rewrite (IH ds eq_refl). reflexivity.
Qed.

Lemma lookup_all_rev_error l e :
  lookup_all _COMP_BASE l = Err e -> lookup_all _BASE_ONEHOT_REV l = Err e.
Proof.
  induction l as [| c l IH]; cbn; [discriminate|].
  rewrite onehot_rev_is_comp.
  destruct (dict_get _COMP_BASE c) as [d |] eqn:Hd; cbn; [|congruence].
  destruct (onehot_of_complement c d Hd) as [v ->].
  cbn. destruct (lookup_all _COMP_BASE l) as [ds | e']; cbn; [discriminate|].
  intros [= ->]. rewrite (IH eq_refl). reflexivity.
Qed.

#[local] Transparent _COMP_BASE _BASE_ONEHOT _BASE_ONEHOT_REV.

(** The two return modes of [FastaReader.fetch] agree on the minus
    strand: the array it returns is the one-hot array of the string it
    returns, and it raises in one mode what it raises in the other. *)
Theorem fetch_minus_array_of_string fasta_file chrom_ start_ end' :
  FastaReader_fetch fasta_file chrom_ start_ end' "-" true
  = match FastaReader_fetch fasta_file chrom_ start_ end' "-" false with
    | Ok (FetchedSeq rc) =>
        match seq2array rc false with
        | Ok a => Ok (FetchedArray a)
        | Err e => Err e
        end
    | Ok (FetchedArray a) => Ok (FetchedArray a)
    | Err e => Err e
    end.
Proof.
  unfold FastaReader_fetch. cbn [String.eqb Ascii.eqb Bool.eqb].
  destruct (fasta_file chrom_ start_ end') as [s |]; cbn; [|reflexivity].
  unfold reverse_complement, seq2array.
  destruct (lookup_all _COMP_BASE (rev (list_ascii_of_string (upper s))))
    as [l |] eqn:Hl; cbn.
  - rewrite list_ascii_of_string_of_list_ascii.
    rewrite (lookup_all_rev_comp _ l Hl). reflexivity.
  - rewrite (lookup_all_rev_error _ e Hl). reflexivity.
Qed.

Lemma dict_get_In {V : Type} (table : list (ascii * V)) c v :
  dict_get table c = Some v -> In (c, v) table.
Proof.
  induction table as [| [k v'] table IH]; cbn; [discriminate|].
  destruct (Ascii.eqb_spec k c) as [-> |].
  - intros [= ->]. left. reflexivity.
  - intros H. right. apply IH. exact H.
Qed.

Lemma lookup_all_values {V : Type} (P : V -> Prop) (table : list (ascii * V)) :
  Forall (fun kv => P (snd kv)) table ->
  forall l vs, lookup_all table l = Ok vs ->
               length vs = length l /\ Forall P vs.
Proof.
  intros Htable l vs H. apply lookup_all_forall2 in H.
  induction H as [| c v l vs Hc _ [IHlen IH]]; [split; constructor|].
  split; [cbn; congruence|]. constructor; [|exact IH].
  apply dict_get_In in Hc. rewrite Forall_forall in Htable.
  apply (Htable (c, v)). apply list_elem_of_In. exact Hc.
Qed.

Lemma row_check_ok row : row_check row = true -> row_is_distribution row.
Proof.
  unfold row_check, row_is_distribution. cbv zeta.
  rewrite !andb_true_iff, orb_true_iff, forallb_forall.
  intros [[Hlen Hall] Hsum]. split; [apply Nat.eqb_eq; exact Hlen|]. split.
  - apply Forall_forall. intros v Hv.
    apply list_elem_of_In, Hall in Hv.
    rewrite !andb_true_iff, !Qle_bool_iff in Hv. tauto.
  - destruct Hsum as [H | H]; apply Qeq_bool_iff in H; auto.
Qed.

Lemma onehot_rows :
  Forall (fun kv => row_is_distribution (map to_float32 (snd kv)))
    _BASE_ONEHOT /\
  Forall (fun kv => row_is_distribution (map to_float32 (snd kv)))
    _BASE_ONEHOT_REV.
Proof.
  assert (forall table,
             forallb (fun kv : ascii * list float =>
                        row_check (map to_float32 kv.2)) table = true ->
             Forall (fun kv => row_is_distribution (map to_float32 kv.2))
               table) as Hcheck.
  { intros table H. rewrite forallb_forall in H. apply Forall_forall.
    intros kv Hkv. apply row_check_ok, H, list_elem_of_In, Hkv. }
  split; apply Hcheck; vm_compute; reflexivity.
Qed.

Lemma length_list_ascii_of_string s :
  length (list_ascii_of_string s) = String.length s.
Proof. induction s as [| c s IH]; cbn; congruence. Qed.

(** The reference array has one row for each character of the sequence,
    and every row holds four binary32 weights between 0 and 1 whose exact
    sum is 1, or [1 + 2^-25] where the row holds the binary32 number
    nearest to 1/3 three times, for the plus and for the minus strand. *)
Theorem seq2array_rows sequence if_reverse a :
  seq2array sequence if_reverse = Ok a ->
  length a = String.length sequence /\ Forall row_is_distribution a.
Proof.
  destruct onehot_rows as [Hfwd Hrev]. unfold seq2array.
  destruct if_reverse.
  - destruct (lookup_all _ _) as [rows |] eqn:H; [|discriminate].
    intros [= <-].
    destruct (lookup_all_values
                (fun row => row_is_distribution (map to_float32 row))
                _ Hrev _ _ H) as [Hlen Hrows].
    rewrite length_map, Hlen, length_rev, length_list_ascii_of_string.
    split; [reflexivity|]. apply Forall_map. exact Hrows.
  - destruct (lookup_all _ _) as [rows |] eqn:H; [|discriminate].
    intros [= <-].
    destruct (lookup_all_values
                (fun row => row_is_distribution (map to_float32 row))
                _ Hfwd _ _ H) as [Hlen Hrows].
    rewrite length_map, Hlen, length_list_ascii_of_string.
    split; [reflexivity|]. apply Forall_map. exact Hrows.
Qed.

Lemma seq2array_rows_witness :
  let a := [[0.5; 0; 0; 0.5]; [0; 0; 0; 1]]%float in
  length a = String.length "AS" /\ Forall row_is_distribution a.
Proof. apply (seq2array_rows "AS" true). vm_compute. reflexivity. Defined.

Lemma onehot_keys c :
  (dict_get _BASE_ONEHOT c = None <-> is_iupac c = false) /\
  (dict_get _BASE_ONEHOT_REV c = None <-> is_iupac c = false).
Proof.
  unfold is_iupac, _BASE_ONEHOT, _BASE_ONEHOT_REV, _COMP_BASE.
  cbn [dict_get]. by_iupac_cases c; cbv [Ascii.eqb Bool.eqb];
    split; split; congruence.
Qed.

Lemma lookup_all_error {V : Type} (table : list (ascii * V)) l :
  (forall e, lookup_all table l = Err e -> e = KeyError) /\
  (lookup_all table l = Err KeyError <->
   Exists (fun c => dict_get table c = None) l).
Proof.
  induction l as [| c l [IHe IH]]; cbn.
  - split; [discriminate|]. split; [discriminate | intros H; inversion H].
  - destruct (dict_get table c) as [v |] eqn:Hc; cbn.
    + destruct (lookup_all table l) as [vs | e'] eqn:Hl; cbn.
      * split; [discriminate|]. split; [discriminate|].
        intros H. inversion H; subst; [congruence|].
        apply IH in H1. discriminate.
      * split; [intros e [= <-]; apply IHe; reflexivity|].
        pose proof (IHe e' eq_refl) as ->.
        split; [|reflexivity]. intros _. apply Exists_cons_tl.
        apply IH. reflexivity.
    + split; [intros e [= <-]; reflexivity|].
      split; [|reflexivity]. intros _. constructor. exact Hc.
Qed.

Lemma bind_ok_err {A B : Type} (m : result A) (f : A -> B) e :
  (x ← m; Ok (f x)) = Err e <-> m = Err e.
Proof. destruct m; cbn; split; congruence. Qed.

(** [seq2array] raises [KeyError], and nothing else, exactly on the
    sequences that hold a character outside the IUPAC alphabet (a gap, a
    U, a lower-case letter). *)
Theorem seq2array_unknown_character sequence if_reverse :
  (seq2array sequence if_reverse = Err KeyError <->
   Exists (fun c => is_iupac c = false) (list_ascii_of_string sequence)) /\
  (forall e, seq2array sequence if_reverse = Err e -> e = KeyError).
Proof.
  unfold seq2array. destruct if_reverse; setoid_rewrite bind_ok_err.
  - destruct (lookup_all_error _BASE_ONEHOT_REV
                (rev (list_ascii_of_string sequence))) as [He Hiff].
    split; [|exact He]. rewrite Hiff. rewrite !Exists_exists.
    split; intros (c & Hin & Hc); exists c;
      destruct (onehot_keys c) as [_ [Hr1 Hr2]].
    + split; [apply list_elem_of_In, in_rev, list_elem_of_In; exact Hin|].
      apply Hr1. exact Hc.
    + split; [apply list_elem_of_In, in_rev; rewrite rev_involutive;
              apply list_elem_of_In; exact Hin|].
      apply Hr2. exact Hc.
  - destruct (lookup_all_error _BASE_ONEHOT (list_ascii_of_string sequence))
      as [He Hiff].
    split; [|exact He]. rewrite Hiff. rewrite !Exists_exists.
    split; intros (c & Hin & Hc); exists c; (split; [exact Hin|]);
      destruct (onehot_keys c) as [[Hf1 Hf2] _]; auto.
Qed.

(** * Properties of the callers: worker arguments and region keys *)

Lemma resize_same_site fuel r w limit r' :
  resize fuel r w limit = Some r' ->
  chrom r' = chrom r /\ strand r' = strand r.
Proof.
  intros H.
  pose proof (grow_fields r w limit) as (? & ? & _).
  pose proof (recenter_fields r) as (Hc & Hs & _).
  pose proof (grow_fields (recenter r) w limit) as (? & ? & _).
  destruct (resize_cases _ _ _ _ _ H) as [-> | [-> | [_ [-> | ->]]]];
    split; congruence.
Qed.

(** Every task that [extract_alignment] hands to the workers meets the
    precondition of the encoder: for an alignment window of at least 1 the
    argument list is built (no [resize] fails to return), it has one task
    for each region, in order, and in each task the region has the width of
    the window, lies on the chromosome and the strand of the region it
    comes from, and carries the key of that region as it was before the
    resize. *)
Theorem alignment_args_fit_window n region_list ali_window chr_length
    indexed_bam output_str overwrite :
  1 <= ali_window ->
  exists args,
    alignment_args (2 + n) region_list ali_window chr_length
      indexed_bam output_str overwrite = Some args /\
    Forall2 (fun each_region (task : region_args) =>
               let '(ali_region, key, bam, w, dir, ov) := task in
               end_ ali_region - start ali_region = w /\
               w = ali_window /\
               key = Region_str each_region /\
               chrom ali_region = chrom each_region /\
               strand ali_region = strand each_region /\
               bam = indexed_bam /\ dir = output_str /\ ov = overwrite)
            region_list args.
Proof.
  intros Hw. unfold alignment_args.
  induction region_list as [| r region_list (args & Hargs & Hall)].
  - exists []. split; [reflexivity | constructor].
  - destruct (resize_two n r ali_window (chr_length !! chrom r) Hw)
      as (r' & Hr' & Hwidth).
    destruct (resize_same_site _ _ _ _ _ Hr') as [Hc Hs].
    eexists. split.
    + cbn [mapM]. rewrite Hr'. cbn [mbind option_bind]. rewrite Hargs.
      reflexivity.
    + constructor; [|exact Hall]. unfold width in Hwidth. repeat split; auto.
Qed.

Lemma alignment_args_fit_window_witness :
  exists args,
    alignment_args 2 [mkRegion "chr1" 104 105 Plus "" 0] 10
      {["chr1" := 1000]} "reads.bam" "out" false = Some args /\
    Forall2 (fun each_region (task : region_args) =>
               let '(ali_region, key, bam, w, dir, ov) := task in
               end_ ali_region - start ali_region = w /\
               w = 10 /\
               key = Region_str each_region /\
               chrom ali_region = chrom each_region /\
               strand ali_region = strand each_region /\
               bam = "reads.bam"%string /\ dir = "out"%string /\ ov = false)
            [mkRegion "chr1" 104 105 Plus "" 0] args.
Proof.
  apply (alignment_args_fit_window 0 [mkRegion "chr1" 104 105 Plus "" 0] 10
           {["chr1" := 1000]} "reads.bam" "out" false).
  lia.
Defined.

Lemma has_char_append c a b :
  has_char c (a +:+ b) = has_char c a || has_char c b.
Proof.
  induction a as [| c' a IH]; [reflexivity|].
  change (String c' a +:+ b) with (String c' (a +:+ b)).
  cbn [has_char]. rewrite IH. apply orb_assoc.
Qed.

Lemma split_plain sep a : has_char sep a = false -> split sep a = [a].
Proof.
  induction a as [| c a IH]; cbn [split has_char]; [reflexivity|].
  destruct (Ascii.eqb c sep); cbn [orb]; [discriminate|].
  intros H. rewrite (IH H). reflexivity.
Qed.

Lemma split_append sep a b :
  has_char sep a = false ->
  split sep (a +:+ String sep b) = a :: split sep b.
Proof.
  induction a as [| c a IH].
  - intros _. change ("" +:+ String sep b) with (String sep b).
    cbn [split]. rewrite Ascii.eqb_refl. reflexivity.
  - change (String c a +:+ String sep b) with (String c (a +:+ String sep b)).
    cbn [split has_char].
    destruct (Ascii.eqb c sep); cbn [orb]; [discriminate|].
    intros H. rewrite (IH H). reflexivity.
Qed.

(** No part of a split holds the separator. *)
Lemma split_parts sep s :
  Forall (fun part => has_char sep part = false) (split sep s).
Proof.
  induction s as [| c s IH]; cbn [split]; [repeat constructor|].
  destruct (Ascii.eqb c sep) eqn:Hc; [constructor; [reflexivity | exact IH]|].
  destruct (split sep s) as [| h t].
  - repeat constructor. cbn [has_char]. rewrite Hc. reflexivity.
  - inversion IH; subst. constructor; [|assumption].
    cbn [has_char]. rewrite Hc. assumption.
Qed.

Lemma digits_only c d :
  (Z.of_nat (nat_of_ascii c) < 48 \/ 57 < Z.of_nat (nat_of_ascii c)) ->
  has_char c (NilEmpty.string_of_uint d) = false.
Proof.
  intros Hc. induction d as [| d IH | d IH | d IH | d IH | d IH | d IH
                               | d IH | d IH | d IH | d IH];
    cbn [NilEmpty.string_of_uint has_char]; [reflexivity|..];
    rewrite IH, orb_false_r; apply Ascii.eqb_neq; intros <-;
    destruct Hc as [Hc | Hc]; vm_compute in Hc; discriminate Hc.
Qed.

Lemma digits_only_zero c d :
  (Z.of_nat (nat_of_ascii c) < 48 \/ 57 < Z.of_nat (nat_of_ascii c)) ->
  has_char c (NilZero.string_of_uint d) = false.
Proof.
  intros Hc. unfold NilZero.string_of_uint.
  destruct d; try (apply digits_only; exact Hc).
  cbn [has_char]. rewrite orb_false_r. apply Ascii.eqb_neq. intros <-.
  destruct Hc as [Hc | Hc]; vm_compute in Hc; discriminate Hc.
Qed.

Lemma str_Z_digits c n :
  0 <= n ->
  (Z.of_nat (nat_of_ascii c) < 48 \/ 57 < Z.of_nat (nat_of_ascii c)) ->
  has_char c (str_Z n) = false.
Proof.
  intros Hn Hc. unfold str_Z. destruct n as [| p | p]; [| |lia];
    cbn [Z.to_int NilZero.string_of_int]; apply digits_only_zero; exact Hc.
Qed.

(** The key of a region comes back from [predict_sample]: for a dataset
    directory without a slash, a chromosome name without slash and
    underscore and coordinates that are not negative, the row that
    [predict_sample] builds from the path [datasets + '/' + str(region)]
    starts with the chromosome, the start and the end of the region and
    ends with its strand. *)
Theorem predict_sample_reads_key datasets region pred proba :
  has_char "/" datasets = false ->
  has_char "/" (chrom region) = false ->
  has_char "_" (chrom region) = false ->
  0 <= start region -> 0 <= end_ region ->
  predict_sample true pred proba (datasets +:+ "/" +:+ Region_str region)
  = Ok [chrom region; str_Z (start region); str_Z (end_ region);
        pred; proba; strand_string (strand region)].
Proof.
  intros Hd Hc1 Hc2 Hs He.
  assert (forall c n, 0 <= n ->
            (Z.of_nat (nat_of_ascii c) < 48 \/ 57 < Z.of_nat (nat_of_ascii c)) ->
            has_char c (str_Z n) = false) as Hdig by (apply str_Z_digits).
  pose proof (Hdig "/"%char _ Hs ltac:(vm_compute; auto)) as Hs1.
  pose proof (Hdig "_"%char _ Hs ltac:(vm_compute; auto)) as Hs2.
  pose proof (Hdig "-"%char _ Hs ltac:(vm_compute; auto)) as Hs3.
  pose proof (Hdig "/"%char _ He ltac:(vm_compute; auto)) as He1.
  pose proof (Hdig "_"%char _ He ltac:(vm_compute; auto)) as He2.
  pose proof (Hdig "-"%char _ He ltac:(vm_compute; auto)) as He3.
  assert (has_char "/" (strand_string (strand region)) = false /\
          has_char "_" (strand_string (strand region)) = false) as [Hst1 Hst2]
    by (destruct (strand region); split; reflexivity).
  unfold predict_sample, Region_str.
  change (datasets +:+ "/" +:+ ?k) with (datasets +:+ String "/" k).
  rewrite (split_append "/" datasets) by exact Hd.
  rewrite split_plain.
  2:{ rewrite !has_char_append, Hc1, Hst1, Hs1, He1. reflexivity. }
  cbn [py_index np_index length mbind result_bind of_option lookup Z.of_nat].
  change (py_index [datasets; ?k] 1) with (@Ok string k).
  cbn [mbind result_bind].
  change (chrom region +:+ "_" +:+ ?k) with (chrom region +:+ String "_" k).
  rewrite (split_append "_" (chrom region)) by exact Hc2.
  change (strand_string (strand region) +:+ "_" +:+ ?k)
    with (strand_string (strand region) +:+ String "_" k).
  rewrite (split_append "_" (strand_string (strand region))) by exact Hst2.
  rewrite split_plain.
  2:{ rewrite !has_char_append, Hs2, He2. reflexivity. }
  change (py_index [?a; ?b; ?c] 2) with (@Ok string c).
  cbn [mbind result_bind].
  change (str_Z (start region) +:+ "-" +:+ ?k)
    with (str_Z (start region) +:+ String "-" k).
  rewrite (split_append "-" (str_Z (start region))) by exact Hs3.
  rewrite split_plain by exact He3.
  reflexivity.
Qed.

Lemma predict_sample_reads_key_witness :
  predict_sample true "1" "0.93"
    ("data" +:+ "/" +:+ Region_str (mkRegion "chr1" 104 105 Minus "" 0))
  = Ok ["chr1"; "104"; "105"; "1"; "0.93"; "-"]%string.
Proof.
  apply (predict_sample_reads_key "data" (mkRegion "chr1" 104 105 Minus "" 0)
           "1" "0.93"); cbn; first [reflexivity | lia].
Defined.

(** [predict_sample] never reports a chromosome name with an underscore
    in it (chr1_random, say): the first field of a row it returns has
    none, so such a name comes back cut at its first underscore, if the
    call returns a row at all. *)
Theorem predict_sample_cuts_chromosome is_file pred proba datasets_region
    c row :
  predict_sample is_file pred proba datasets_region = Ok (c :: row) ->
  has_char "_" c = false.
Proof.
  unfold predict_sample. destruct is_file; [|discriminate].
  destruct (py_index (split "/" datasets_region) 1) as [part |]; cbn;
    [|discriminate].
  destruct (py_index (split "_" part) 2) as [field |]; cbn; [|discriminate].
  destruct (py_index (split "_" part) 0) as [c0 |] eqn:Hc0; cbn;
    [|discriminate].
  destruct (py_index (split "-" field) 0); cbn; [|discriminate].
  destruct (py_index (split "-" field) 1); cbn; [|discriminate].
  destruct (py_index (split "_" part) 1); cbn; [|discriminate].
  intros [= <- _].
  unfold py_index in Hc0.
  destruct (np_index (length (split "_" part)) 0) as [k |]; cbn in Hc0;
    [|discriminate].
  destruct (split "_" part !! k) as [x |] eqn:Hk; cbn in Hc0; [|discriminate].
  injection Hc0 as ->.
  pose proof (split_parts "_" part) as Hparts.
  rewrite Forall_forall in Hparts. apply Hparts.
  eapply list_elem_of_lookup_2. exact Hk.
Qed.

Lemma predict_sample_cuts_chromosome_witness :
  has_char "_" "chr1" = false.
Proof.
  apply (predict_sample_cuts_chromosome true "1" "0.93"
           "data/chr1_random_-_104-105" "chr1"
           [""; ""; "1"; "0.93"; "random"]%string).
  reflexivity.
Defined.

(** * The encoder on a read without gaps *)

Section EncoderGapless.

Context {Q : Type} (qzero : Q) (requality : list Q -> result Q).

Lemma snd_set_hot a i j v :
  snd (set_hot a i j v)
  = (r ← np_index (length a) i;
     c ← np_index 6 j;
     Ok (alter (fun row => <[c := v]> row) r a)).
Proof. unfold set_hot, tell, lift, wbind. reflexivity. Qed.

Lemma snd_set_qual (a : list Q) i v :
  snd (set_qual a i v) = (k ← np_index (length a) i; Ok (<[k := v]> a)).
Proof. unfold set_qual, tell, lift, wbind. reflexivity. Qed.

Lemma base_ints_range b col : _BASE_INTS b = Some col -> 0 <= col < 6.
Proof.
  unfold _BASE_INTS.
  repeat (destruct (Ascii.eqb b _); [intros [= <-]; lia|]). discriminate.
Qed.

(** A match with no insertion pending writes the row of the base and its
    quality at the first row that is still empty. *)
Lemma snd_encode_match_plain read region done_hot (done_q : list Q) m
    ri rf base col q :
  length done_hot = length done_q ->
  rf - start region = Z.of_nat (length done_hot) ->
  read_base read ri = Ok base -> _BASE_INTS base = Some col ->
  read_qual read ri = Ok q ->
  snd (encode_match requality read region
         (mkScan (done_hot ++ replicate (S m) (replicate 6 0))
                 (done_q ++ replicate (S m) qzero) true [] [])
         ri rf)
  = Ok (mkScan ((done_hot ++ [onehot_row col]) ++ replicate m (replicate 6 0))
               ((done_q ++ [q]) ++ replicate m qzero) true [] []).
Proof.
  intros Hlen Hrow Hbase Hcol Hq. unfold encode_match.
  cbn [insert_seq_list nonempty range_one_hot range_quality in_range
       insert_qual_list].
  rewrite Hbase. unfold lift at 1. rewrite wbind_nil_ok.
  rewrite Hcol. cbn [of_option]. unfold lift at 1. rewrite wbind_nil_ok.
  pose proof (base_ints_range base col Hcol) as Hcolr.
  assert (snd (set_hot (done_hot ++ replicate (S m) (replicate 6 0))
                 (rf - start region) col 1)
          = Ok ((done_hot ++ [onehot_row col]) ++ replicate m (replicate 6 0)))
    as Hhot.
  { rewrite snd_set_hot, Hrow.
    rewrite (np_index_in_range _ (Z.of_nat (length done_hot)))
      by (rewrite length_app, length_replicate; lia).
    rewrite (np_index_in_range 6 col) by exact Hcolr.
    cbn [mbind result_bind]. rewrite Nat2Z.id. f_equal.
    rewrite <- (Nat.add_0_r (length done_hot)), alter_app_r.
    rewrite <- app_assoc. reflexivity. }
  rewrite (snd_wbind_ok _ _ _ Hhot).
  rewrite Hq. unfold lift at 1. rewrite wbind_nil_ok.
  assert (snd (set_qual (done_q ++ replicate (S m) qzero)
                 (rf - start region) q)
          = Ok ((done_q ++ [q]) ++ replicate m qzero)) as Hqual.
  { rewrite snd_set_qual, Hrow, Hlen.
    rewrite (np_index_in_range _ (Z.of_nat (length done_q)))
      by (rewrite length_app, length_replicate; lia).
    cbn [mbind result_bind]. rewrite Nat2Z.id. f_equal.
    rewrite <- (Nat.add_0_r (length done_q)), insert_app_r.
    rewrite <- app_assoc. reflexivity. }
  rewrite (snd_wbind_ok _ _ _ Hqual). reflexivity.
Qed.

Lemma scan_step_match read region hot (qual : list Q) b ri rf :
  b = true \/ rf = start region ->
  ri <> 0 -> rf <> 0 -> rf < end_ region ->
  scan_step requality read region (mkScan hot qual b [] []) (Some ri, Some rf)
  = wbind (encode_match requality read region
             (mkScan hot qual true [] []) ri rf)
          (fun st' => wret (Some st')).
Proof.
  intros Hb Hri Hrf Hend. unfold scan_step. cbn [ref_equals truthy].
  assert (encode_pair requality read region (mkScan hot qual true [] [])
            (Some ri) (Some rf)
          = encode_match requality read region (mkScan hot qual true [] [])
              ri rf) as Hpair.
  { unfold encode_pair. cbn [in_range truthy].
    destruct (Z.eqb_spec ri 0); [contradiction|].
    destruct (Z.eqb_spec rf 0); [contradiction|]. reflexivity. }
  destruct (Z.eqb_spec rf (start region)) as [Hs | Hs].
  - change (set_in_range (mkScan hot qual b [] []))
      with (mkScan hot qual true [] []).
    rewrite Hpair. reflexivity.
  - destruct Hb as [-> | Hb]; [|contradiction].
    destruct (Z.eqb_spec rf 0); [contradiction|].
    change (default 0 (Some rf)) with rf.
    destruct (Z.leb_spec (end_ region) rf); [lia|].
    cbn [negb andb]. rewrite Hpair. reflexivity.
Qed.

Lemma scan_matches read region suffix :
  forall cols quals done_hot done_q m b ri rf,
  length done_hot = length done_q ->
  rf - start region = Z.of_nat (length done_hot) ->
  b = true \/ rf = start region ->
  (length cols <= m)%nat ->
  cols <> [] -> 1 <= ri -> 1 <= rf ->
  rf + Z.of_nat (length cols) <= end_ region ->
  matched read ri cols quals ->
  snd (scan requality read region (match_pairs ri rf (length cols) ++ suffix)
         (mkScan (done_hot ++ replicate m (replicate 6 0))
                 (done_q ++ replicate m qzero) b [] []))
  = snd (scan requality read region suffix
           (mkScan ((done_hot ++ map onehot_row cols)
                    ++ replicate (m - length cols) (replicate 6 0))
                   ((done_q ++ quals) ++ replicate (m - length cols) qzero)
                   true [] [])).
Proof.
  induction cols as [| col cols IH];
    intros quals done_hot done_q m b ri rf Hlen Hrow Hb Hm Hne Hri Hrf Hend
           Hmatched; [contradiction|].
  destruct quals as [| q quals]; [destruct Hmatched|].
  destruct Hmatched as ((base & Hbase & Hcol) & Hq & Hrest).
  destruct m as [| m]; [cbn in Hm; lia|].
  cbn [length match_pairs app scan]. cbn [length] in Hend, Hm.
  rewrite scan_step_match by (assumption || lia).
  pose proof (snd_encode_match_plain read region done_hot done_q m
                ri rf base col q Hlen Hrow Hbase Hcol Hq) as Hstep.
  match type of Hstep with
  | snd ?m = Ok ?st1 =>
      assert (snd (wbind m (fun st' => wret (Some st'))) = Ok (Some st1))
        as Hinner by (rewrite (snd_wbind_ok _ _ _ Hstep); reflexivity)
  end.
  rewrite (snd_wbind_ok _ _ _ Hinner).
  destruct cols as [| col' cols'].
  - destruct quals; [|destruct Hrest].
    cbn [length match_pairs app map Nat.sub]. rewrite Nat.sub_0_r.
    reflexivity.
  - rewrite (IH quals (done_hot ++ [onehot_row col]) (done_q ++ [q]) m true
               (ri + 1) (rf + 1)).
    2:{ rewrite !length_app. cbn [length]. lia. }
    2:{ rewrite length_app. cbn [length]. lia. }
    2:{ left. reflexivity. }
    2:{ cbn [length] in *. lia. }
    2:{ discriminate. }
    2:{ lia. }
    2:{ lia. }
    2:{ cbn [length] in *. lia. }
    2:{ exact Hrest. }
    cbn [map]. rewrite <- !app_assoc. cbn [app Nat.sub]. reflexivity.
Qed.

Lemma scan_after_region read region (st : scan_state Q) suffix :
  start region < end_ region -> 0 <= start region ->
  suffix = [] \/
  (exists x v rest, suffix = (x, Some v) :: rest /\ end_ region <= v) ->
  snd (scan requality read region suffix st) = Ok st.
Proof.
  intros Hvalid Hs [-> | (x & v & rest & -> & Hv)]; [reflexivity|].
  cbn [scan]. unfold scan_step. cbn [ref_equals truthy].
  destruct (Z.eqb_spec v (start region)); [lia|].
  destruct (Z.eqb_spec v 0); [lia|]. change (default 0 (Some v)) with v.
  destruct (Z.leb_spec (end_ region) v); [|lia]. reflexivity.
Qed.

Lemma onehot_row_nonzero col :
  0 <= col < 6 -> existsb (fun v => negb (v =? 0)) (onehot_row col) = true.
Proof.
  intros H. unfold onehot_row.
  assert (col = 0 \/ col = 1 \/ col = 2 \/ col = 3 \/ col = 4 \/ col = 5)
    as [-> | [-> | [-> | [-> | [-> | ->]]]]] by lia; reflexivity.
Qed.

(** The encoder on a read without gaps.  For a read of the strand of the
    region that begins before or on the first position of the region and
    matches the reference from there on, base by base, for [n >= 1]
    positions inside the region, with read and reference positions of at
    least 1: row [k] of the tensor is the one-hot row of the [k]-th matched
    base, entry [k] of the quality vector is its quality, and the rows and
    entries after the last matched base are 0. *)
Theorem encoder_gapless_read (read : Read Q) region ali_window
    prefix suffix ri cols quals :
  read_strand read = strand region ->
  ali_window = end_ region - start region ->
  1 <= start region -> 1 <= ri -> cols <> [] ->
  Z.of_nat (length cols) <= ali_window ->
  aligned_pairs read
  = prefix ++ match_pairs ri (start region) (length cols) ++ suffix ->
  Forall (fun p => forall v, snd p = Some v -> v < start region) prefix ->
  suffix = [] \/
  (exists x v rest, suffix = (x, Some v) :: rest /\ end_ region <= v) ->
  matched read ri cols quals ->
  snd (get_read_alignment qzero requality read region ali_window)
  = Ok (Some (mkFeatures (query_name read)
                (map onehot_row cols
                 ++ replicate (Z.to_nat ali_window - length cols)
                      (replicate 6 0))
                (quals
                 ++ replicate (Z.to_nat ali_window - length cols) qzero))).
Proof.
  intros Hstrand Hwin Hs Hri Hne Hn Hpairs Hprefix Hsuffix Hmatched.
  assert (1 <= length cols)%nat by (destruct cols; [contradiction | cbn; lia]).
  rewrite get_read_alignment_same_strand by (assumption || lia).
  rewrite Hpairs, scan_before_region by (reflexivity || assumption || lia).
  unfold init_state.
  pose proof (scan_matches read region suffix cols quals [] []
                (Z.to_nat ali_window) false ri (start region)) as Hscan.
  cbn [app length] in Hscan. rewrite Hscan; clear Hscan.
  2:{ reflexivity. }
  2:{ lia. }
  2:{ right. reflexivity. }
  2:{ lia. }
  2:{ exact Hne. }
  2:{ exact Hri. }
  2:{ exact Hs. }
  2:{ lia. }
  2:{ exact Hmatched. }
  rewrite scan_after_region by (assumption || lia).
  cbn [range_one_hot range_quality app].
  assert (any_nonzero
            (map onehot_row cols
             ++ replicate (Z.to_nat ali_window - length cols) (replicate 6 0))
          = true) as ->; [|reflexivity].
  destruct cols as [| col cols]; [contradiction|].
  destruct quals as [| q quals]; [destruct Hmatched|].
  destruct Hmatched as ((base & _ & Hcol) & _).
  unfold any_nonzero. cbn [map app existsb].
  rewrite (onehot_row_nonzero col) by (eapply base_ints_range; exact Hcol).
  reflexivity.
Qed.

End EncoderGapless.

Lemma encoder_gapless_read_witness :
  snd (get_read_alignment 0%float insert_requality
         (mkRead "read1" true
            [(Some 1, Some 99); (Some 2, Some 100); (Some 3, Some 101);
             (Some 4, Some 102)]
            "TTACG" [10; 11; 12; 13; 14]%float)
         (mkRegion "chr1" 100 102 Minus "" 0) 2)
  = Ok (Some (mkFeatures "read1"
                (map onehot_row [0; 1] ++ replicate (Z.to_nat 2 - 2) (replicate 6 0))
                ([12; 13]%float ++ replicate (Z.to_nat 2 - 2) 0%float))).
Proof.
  apply (encoder_gapless_read 0%float insert_requality
           (mkRead "read1" true
              [(Some 1, Some 99); (Some 2, Some 100); (Some 3, Some 101);
               (Some 4, Some 102)]
              "TTACG" [10; 11; 12; 13; 14]%float)
           (mkRegion "chr1" 100 102 Minus "" 0) 2
           [(Some 1, Some 99)] [(Some 4, Some 102)] 2 [0; 1] [12; 13]%float);
    try reflexivity; cbn; try lia; try discriminate.
  - repeat constructor. cbn. intros v [= <-]. lia.
  - right. exists (Some 4), 102, []. split; [reflexivity | lia].
  - repeat split; eexists; split; reflexivity.
Defined.
